(** * schedule-send.ts: session cache and throttled dispatch of tweets

    A shallow embedding of [src/schedule-send.ts].  Pure helpers
    ([parseTimeString], [parseInt], [getMimeType], [areCookiesValid]) are
    Rocq functions.  The asynchronous methods of [TwitterClient] run in a
    state-and-error monad over a [World] holding the cookie file and the
    trace of externally visible operations; everything the program cannot
    decide itself (the clock, the file system, the remote scraper) is an
    oracle of an [Env] record that may depend on the trace so far.

    The JavaScript numbers of the program are integers or infinities
    (minutes, counts, milliseconds); they are represented in [Z], an
    infinity by [+-2^1024], a value no finite double has, and every
    arithmetic result is rounded as a double is ([Num.toDouble]).  Strings
    are the UTF-8 bytes of the JavaScript strings: the characters the
    program inspects (['.'], digits, signs, the letters of the option names,
    units and extensions) are ASCII, and the white space [parseInt] skips is
    recognised on its UTF-8 encoding.

    The trace records the operations that act on the outside world
    (scraper calls, the write of the cookie file, timed waits); reads of
    files and of the clock are answered by the environment and leave no
    event. *)

From Stdlib Require Import ZArith List String Ascii Bool Lia.
Import ListNotations.
Local Open Scope string_scope.
Local Open Scope Z_scope.

(** ** Strings *)

Module Str.

Definition isDigit (c : ascii) : bool :=
  let n := nat_of_ascii c in (48 <=? n)%nat && (n <=? 57)%nat.

Definition isUpper (c : ascii) : bool :=
  let n := nat_of_ascii c in (65 <=? n)%nat && (n <=? 90)%nat.

Definition lowerChar (c : ascii) : ascii :=
  if isUpper c then ascii_of_nat (nat_of_ascii c + 32) else c.

(** [String.prototype.toLowerCase] on the ASCII letters; the bytes of
    other characters are kept.  The program only compares the result with
    ASCII names (the keys of the media table and of [Object.prototype]).
    The one character outside ASCII that lowers to ASCII letters alone is
    the Kelvin sign, to [k], and no such name has a [k]; so each of these
    comparisons comes out as in JavaScript.  The same function decides the
    [/i] match of the time units, which folds case on ASCII only. *)
Fixpoint toLowerCase (s : string) : string :=
  match s with
  | EmptyString => EmptyString
  | String c r => String (lowerChar c) (toLowerCase r)
  end.

(** [String.prototype.split] with a one-character separator: the result
    always has at least one segment. *)
Fixpoint split (sep : ascii) (s : string) : list string :=
  match s with
  | EmptyString => [EmptyString]
  | String c r =>
      let segs := split sep r in
      if Ascii.eqb c sep then EmptyString :: segs
      else match segs with
           | h :: t => String c h :: t
           | [] => [String c EmptyString]
           end
  end.

(** [Array.prototype.pop]: the last element, [undefined] on an empty array. *)
Definition pop (l : list string) : option string :=
  match l with
  | [] => None
  | x :: r => Some (List.last r x)
  end.

(** Longest prefix of decimal digits and the rest. *)
Fixpoint spanDigits (s : string) : string * string :=
  match s with
  | EmptyString => (EmptyString, EmptyString)
  | String c r =>
      if isDigit c then let (ds, rest) := spanDigits r in (String c ds, rest)
      else (EmptyString, s)
  end.

Definition contains (c : ascii) (s : string) : bool :=
  existsb (Ascii.eqb c) (list_ascii_of_string s).

End Str.

(** ** Results and errors

    Every failure of the program is a JavaScript [Error]; the constructors
    below name the [throw] site (or the external call that rejected). *)

Inductive Error : Type :=
| InvalidTimeFormat                 (* parseTimeString, line 14 *)
| CountNotPositive                  (* parseArgs, line 201 *)
| ConfigUnreadable                  (* loadTweetsConfig: read or JSON.parse threw *)
| ConfigNotArray                    (* loadTweetsConfig, line 68 *)
| MissingContent (index : nat)      (* loadTweetsConfig, line 73 *)
| EntryIsNull                       (* loadTweetsConfig: TypeError at tweet.content *)
| UnsupportedMedia (path : string)  (* sendTweet, line 129 *)
| MediaUnreadable (path : string)   (* sendTweet: f.arrayBuffer() rejected *)
| PublishFailed                     (* scraper.sendTweet rejected *)
| LoginFailed                       (* scraper.login rejected *)
| GetCookiesFailed                  (* scraper.getCookies rejected *)
| WriteFailed.                      (* Bun.write rejected *)

Inductive Result (A : Type) : Type :=
| Ok (a : A)
| Err (e : Error).
Arguments Ok {A} a.
Arguments Err {A} e.

(** The spec's error taxonomy. *)
Definition isArgError (e : Error) : bool :=
  match e with InvalidTimeFormat | CountNotPositive => true | _ => false end.

Definition isMediaError (e : Error) : bool :=
  match e with UnsupportedMedia _ | MediaUnreadable _ => true | _ => false end.

(** ** Command line *)

Record ScheduleOptions : Type := mkOptions
  { delayMinutes : Z; tweetCount : Z }.

Module Num.

(** [+Infinity]: every finite double is below [2^1024] in absolute value. *)
Definition infinity : Z := 2 ^ 1024.

(** The double nearest to a non-negative integer, ties to the even
    significand of 53 bits; [infinity] from [2^1024 - 2^970] on. *)
Definition roundNat (v : Z) : Z :=
  if v <? 2 ^ 53 then v
  else
    let e := Z.log2 v - 52 in
    let q := Z.shiftr v e in
    let r := v - Z.shiftl q e in
    let half := 2 ^ (e - 1) in
    let q' := if (half <? r) || ((r =? half) && Z.odd q) then q + 1 else q in
    let x := Z.shiftl q' e in
    if infinity <=? x then infinity else x.

(** The Number value of a mathematical integer. *)
Definition toDouble (v : Z) : Z :=
  if v <? 0 then - roundNat (- v) else roundNat v.

(** The time a timer runs once [setTimeout(f, ms)] has armed it: a delay
    below 1 or above the 32-bit range [2147483647] is replaced by 1. *)
Definition timerDelay (ms : Z) : Z :=
  if (ms <? 1) || (2147483647 <? ms) then 1 else ms.

(** Length in bytes of the white space or line terminator at the head of
    [s], 0 when there is none: TAB, LF, VT, FF, CR, SP, and in UTF-8
    U+00A0, U+1680, U+2000..U+200A, U+2028, U+2029, U+202F, U+205F, U+3000,
    U+FEFF. *)
Definition whiteLen (s : string) : nat :=
  match s with
  | EmptyString => 0%nat
  | String c r =>
      let a := nat_of_ascii c in
      if ((9 <=? a)%nat && (a <=? 13)%nat) || (a =? 32)%nat then 1%nat
      else if negb ((a =? 194) || (a =? 225) || (a =? 226) || (a =? 227)
                    || (a =? 239))%nat then 0%nat
      else
        match r with
        | EmptyString => 0%nat
        | String c2 r2 =>
            let b := nat_of_ascii c2 in
            if ((a =? 194) && (b =? 160))%nat then 2%nat
            else
              match r2 with
              | EmptyString => 0%nat
              | String c3 _ =>
                  let d := nat_of_ascii c3 in
                  if (((a =? 225) && (b =? 154) && (d =? 128))
                      || ((a =? 226) && (b =? 128)
                          && (((128 <=? d) && (d <=? 138)) || (d =? 168)
                              || (d =? 169) || (d =? 175)))
                      || ((a =? 226) && (b =? 129) && (d =? 159))
                      || ((a =? 227) && (b =? 128) && (d =? 128))
                      || ((a =? 239) && (b =? 187) && (d =? 191)))%nat
                  then 3%nat else 0%nat
              end
        end
  end.

(** Drop [pending] bytes, then all leading white space. *)
Fixpoint skipWhiteFrom (pending : nat) (s : string) : string :=
  match s with
  | EmptyString => s
  | String _ r =>
      match pending with
      | S k => skipWhiteFrom k r
      | O => match whiteLen s with
             | O => s
             | S k => skipWhiteFrom k r
             end
      end
  end.

Definition skipWhite (s : string) : string := skipWhiteFrom 0 s.

(** Value of a character as a digit of the given radix (10 or 16). *)
Definition digitVal (radix : Z) (c : ascii) : option Z :=
  let n := Z.of_nat (nat_of_ascii c) in
  let v := if (48 <=? n) && (n <=? 57) then Some (n - 48)
           else if (97 <=? n) && (n <=? 122) then Some (n - 87)
           else if (65 <=? n) && (n <=? 90) then Some (n - 55)
           else None in
  match v with
  | Some d => if d <? radix then Some d else None
  | None => None
  end.

(** Value of the longest prefix of digits, [acc] being the value read so
    far; [seen] tells whether a digit was read. *)
Fixpoint digits (radix : Z) (s : string) (seen : bool) (acc : Z) : option Z :=
  match s with
  | EmptyString => if seen then Some acc else None
  | String c r =>
      match digitVal radix c with
      | Some d => digits radix r true (acc * radix + d)
      | None => if seen then Some acc else None
      end
  end.

(** A leading sign: whether it is [-], and the rest. *)
Definition signOf (s : string) : bool * string :=
  match s with
  | String "-" r => (true, r)
  | String "+" r => (false, r)
  | _ => (false, s)
  end.

(** With no radix argument the base is 10, or 16 after [0x] or [0X]. *)
Definition radixOf (s : string) : Z * string :=
  match s with
  | String "0" (String "x" r) => (16, r)
  | String "0" (String "X" r) => (16, r)
  | _ => (10, s)
  end.

(** [parseInt(s)] with no radix argument: the Number value of the signed
    integer read; [None] is [NaN]. *)
Definition parseInt (s : string) : option Z :=
  let '(neg, s2) := signOf (skipWhite s) in
  let '(radix, s3) := radixOf s2 in
  match digits radix s3 false 0 with
  | Some v => Some (toDouble (if neg then - v else v))
  | None => None
  end.

End Num.

(** [/^(\d+)(min|minutes|m)?$/i] followed by [parseInt(match[1])]: the
    digits are matched greedily and no alternative of the suffix starts with
    a digit, so the match is decided on the longest digit prefix. *)
Definition timeSuffixOk (suffix : string) : bool :=
  let s := Str.toLowerCase suffix in
  String.eqb s "" || String.eqb s "min" || String.eqb s "minutes" || String.eqb s "m".

(** The first group of the match, [None] when the string does not match. *)
Definition matchTime (timeStr : string) : option string :=
  let (ds, suffix) := Str.spanDigits timeStr in
  if negb (String.eqb ds "") && timeSuffixOk suffix then Some ds else None.

Definition parseTimeString (timeStr : string) : Result Z :=
  match matchTime timeStr with
  | None => Err InvalidTimeFormat
  | Some ds =>
      match Num.parseInt ds with
      | Some n => Ok n
      | None => Ok 0 (* not reached: [ds] is a non-empty digit string *)
      end
  end.

(** The loop of [parseArgs] over [process.argv.slice(2)]; an option name in
    last position has no value and is skipped. *)
Fixpoint parseArgsFrom (args : list string) (delay count : Z)
  : Result ScheduleOptions :=
  match args with
  | [] => Ok (mkOptions delay count)
  | a :: rest =>
      match rest with
      | v :: rest' =>
          if String.eqb a "--delay" then
            match parseTimeString v with
            | Ok d => parseArgsFrom rest' d count
            | Err e => Err e
            end
          else if String.eqb a "--count" then
            match Num.parseInt v with
            | Some n => if n <? 1 then Err CountNotPositive
                        else parseArgsFrom rest' delay n
            | None => Err CountNotPositive
            end
          else parseArgsFrom rest delay count
      | [] => parseArgsFrom rest delay count
      end
  end.

Definition parseArgs (args : list string) : Result ScheduleOptions :=
  parseArgsFrom args 2 0.

(** ** Media types *)

(** What a property lookup [mimeTypes[extension]] can yield.  [mimeTypes] is
    an object literal, so besides its five own properties the lookup sees the
    members of [Object.prototype] (functions, and the prototype object itself
    for [__proto__]): values that are not strings and are truthy. *)
Inductive JsProp : Type :=
| Undefined
| Str (s : string)
| Inherited (name : string).

Definition truthy (v : JsProp) : bool :=
  match v with
  | Undefined => false
  | Str s => negb (String.eqb s "")
  | Inherited _ => true
  end.

Definition mimeTypes : list (string * string) :=
  [ ("jpg", "image/jpeg"); ("jpeg", "image/jpeg"); ("png", "image/png");
    ("gif", "image/gif"); ("mp4", "video/mp4") ].

Definition objectPrototype : list string :=
  [ "constructor"; "__defineGetter__"; "__defineSetter__"; "hasOwnProperty";
    "__lookupGetter__"; "__lookupSetter__"; "isPrototypeOf";
    "propertyIsEnumerable"; "toString"; "valueOf"; "__proto__";
    "toLocaleString" ].

Fixpoint ownProperty (tbl : list (string * string)) (key : string) : option string :=
  match tbl with
  | [] => None
  | (k, v) :: r => if String.eqb k key then Some v else ownProperty r key
  end.

(** [obj[key]] on an object literal: own properties, then the prototype. *)
Definition getProperty (tbl : list (string * string)) (key : string) : JsProp :=
  match ownProperty tbl key with
  | Some v => Str v
  | None => if existsb (String.eqb key) objectPrototype then Inherited key
            else Undefined
  end.

(** [extension ? mimeTypes[extension] : undefined]; [None] is [undefined]
    and the empty string is falsy. *)
Definition getMimeType (extension : option string) : JsProp :=
  match extension with
  | None => Undefined
  | Some e => if String.eqb e "" then Undefined else getProperty mimeTypes e
  end.

(** [path.split('.').pop()?.toLowerCase()] *)
Definition extensionOf (path : string) : option string :=
  option_map Str.toLowerCase (Str.pop (Str.split "." path)).

(** ** The world of a run *)

Record MediaData : Type := mkMedia
  { data : string; mediaType : JsProp }.

Record StoredCookies : Type := mkStored
  { cookies : list string; timestamp : Z }.

Record TweetConfig : Type := mkTweet
  { content : string; mediaPaths : option (list string) }.

(** An entry of the tweets file before validation: [content] may be absent. *)
Record RawTweet : Type := mkRaw
  { rawContent : option string; rawMediaPaths : option (list string) }.

(** An element of the parsed array.  Reading [.content] of [null] throws a
    TypeError; a number, string, boolean or array has no [content] and
    counts as an entry without one. *)
Inductive JsonEntry : Type :=
| EntryNull
| EntryObject (r : RawTweet).

Inductive FileState : Type :=
| Missing
| Unreadable
| Content (text : string).

(** [JSON.parse] of the cookie file, at the declared type [StoredCookies]. *)
Inductive JsonCookies : Type :=
| ParseThrows
| ParsedNull
| Parsed (c : StoredCookies).

(** Reading and parsing the tweets file. *)
Inductive JsonTweets : Type :=
| TweetsThrows
| TweetsNotArray
| TweetsArray (items : list JsonEntry).

(** Operations on the outside world, in the order they are issued. *)
Inductive Event : Type :=
| SetCookies (cs : list string)       (* scraper.setCookies(cs) *)
| Login                               (* scraper.login(username, password, email) *)
| GetCookies                          (* scraper.getCookies() *)
| WriteCookies (text : string)        (* Bun.write(cookiesPath, text) *)
| Wait (ms : Z)                       (* setTimeout(resolve, ms) *)
| Publish (text : string) (media : option (list MediaData)).
                                      (* scraper.sendTweet(text, undefined, media) *)

(** The oracles of a run.  [firstToReject] names, among concurrent file
    reads that fail, the one that fails first in time. *)
Record Env : Type := mkEnv
  { now : list Event -> Z;                       (* Date.now() *)
    parseCookies : string -> JsonCookies;        (* JSON.parse *)
    stringify : StoredCookies -> string;         (* JSON.stringify(_, null, 2) *)
    setCookiesOk : list Event -> list string -> bool;
    loginOk : list Event -> bool;
    getCookies : list Event -> option (list string);
    writeOk : list Event -> string -> bool;
    tweetsFile : string -> JsonTweets;
    readMedia : list Event -> string -> option string;   (* file(path).arrayBuffer() *)
    sendTweetOk : list Event -> string -> option (list MediaData) -> bool;
    firstToReject : list Event -> list string -> string }.

Record World : Type := mkWorld
  { trace : list Event; cookieFile : FileState }.

(** State and error monad of the asynchronous methods. *)
Definition M (A : Type) : Type := World -> Result A * World.

Definition ret {A} (a : A) : M A := fun w => (Ok a, w).
Definition throw {A} (e : Error) : M A := fun w => (Err e, w).
Definition bind {A B} (m : M A) (k : A -> M B) : M B :=
  fun w => match m w with
           | (Ok a, w') => k a w'
           | (Err e, w') => (Err e, w')
           end.
Definition emit (e : Event) : M unit :=
  fun w => (Ok tt, mkWorld (trace w ++ [e]) (cookieFile w)).
Definition history : M (list Event) := fun w => (Ok (trace w), w).

Notation "x <- m ;; k" := (bind m (fun x => k))
  (at level 61, m at next level, right associativity).
Notation "m ;;; k" := (bind m (fun _ => k))
  (at level 61, right associativity).

(** ** TwitterClient *)

Record TwitterClient : Type := mkClient
  { cookieExpirationMs : Z }.

Definition MIN_DELAY_MINUTES : Z := 2.

(** [constructor(cookiesPath, cookieExpirationHours = 24)] *)
Definition newTwitterClient (cookieExpirationHours : Z) : TwitterClient :=
  mkClient (cookieExpirationHours * 60 * 60 * 1000).

Definition defaultClient : TwitterClient := newTwitterClient 24.

(** [Date.now() - stored.timestamp < this.cookieExpirationMs], with the
    reading of the clock as an argument. *)
Definition areCookiesValid (dateNow maxAgeMs : Z) (stored : StoredCookies) : bool :=
  dateNow - timestamp stored <? maxAgeMs.

Section Client.

Variable env : Env.
Variable client : TwitterClient.

(** [try { JSON.parse(await file.text()) } catch { return null }] *)
Definition loadCookies : M (option StoredCookies) :=
  fun w =>
    match cookieFile w with
    | Missing | Unreadable => (Ok None, w)
    | Content text =>
        match parseCookies env text with
        | ParseThrows | ParsedNull => (Ok None, w)
        | Parsed c => (Ok (Some c), w)
        end
    end.

(** [Bun.write] replaces the file; a write that fails is taken to leave it
    as it was. *)
Definition saveCookies (cs : list string) : M unit :=
  fun w =>
    let cookieData := mkStored cs (now env (trace w)) in
    let text := stringify env cookieData in
    let tr := (trace w ++ [WriteCookies text])%list in
    if writeOk env (trace w) text
    then (Ok tt, mkWorld tr (Content text))
    else (Err WriteFailed, mkWorld tr (cookieFile w)).

(** Lines 108-111: the credential path of [login]. *)
Definition credentialLogin : M unit :=
  h <- history ;;
  emit Login ;;;
  (if loginOk env h then ret tt else throw LoginFailed) ;;;
  h' <- history ;;
  emit GetCookies ;;;
  match getCookies env h' with
  | Some newCookies => saveCookies newCookies
  | None => throw GetCookiesFailed
  end.

Definition login : M unit :=
  storedCookies <- loadCookies ;;
  h <- history ;;
  match storedCookies with
  | Some stored =>
      if areCookiesValid (now env h) (cookieExpirationMs client) stored then
        emit (SetCookies (cookies stored)) ;;;
        if setCookiesOk env h (cookies stored) then ret tt
        else credentialLogin
      else credentialLogin
  | None => credentialLogin
  end.

(** [tweets.forEach]: the first entry that is [null] or whose [content] is
    falsy throws. *)
Fixpoint validateTweets (index : nat) (items : list JsonEntry)
  : Result (list TweetConfig) :=
  match items with
  | [] => Ok []
  | EntryNull :: _ => Err EntryIsNull
  | EntryObject t :: r =>
      match rawContent t with
      | Some c =>
          if String.eqb c "" then Err (MissingContent index)
          else match validateTweets (S index) r with
               | Ok l => Ok (mkTweet c (rawMediaPaths t) :: l)
               | Err e => Err e
               end
      | None => Err (MissingContent index)
      end
  end.

Definition loadTweetsConfig (configPath : string) : M (list TweetConfig) :=
  match tweetsFile env configPath with
  | TweetsThrows => throw ConfigUnreadable
  | TweetsNotArray => throw ConfigNotArray
  | TweetsArray items =>
      match validateTweets 0 items with
      | Ok tweets => ret tweets
      | Err e => throw e
      end
  end.

(** The part of the [map] callback that runs before its first [await]:
    a callback that throws there returns an already rejected promise. *)
Definition checkExtension (path : string) : Result (string * JsProp) :=
  let mimeType := getMimeType (extensionOf path) in
  if truthy mimeType then Ok (path, mimeType)
  else Err (UnsupportedMedia path).

Fixpoint checkExtensions (paths : list string) : Result (list (string * JsProp)) :=
  match paths with
  | [] => Ok []
  | p :: r =>
      match checkExtension p with
      | Err e => Err e
      | Ok x => match checkExtensions r with
                | Ok l => Ok (x :: l)
                | Err e => Err e
                end
      end
  end.

(** The reads of the callbacks, when every one succeeds: the attachments
    in the order of the paths. *)
Fixpoint readInOrder (h : list Event) (checked : list (string * JsProp))
  : option (list MediaData) :=
  match checked with
  | [] => Some []
  | (p, mimeType) :: r =>
      match readMedia env h p, readInOrder h r with
      | Some bytes, Some l => Some (mkMedia bytes mimeType :: l)
      | _, _ => None
      end
  end.

(** The paths whose read fails. *)
Fixpoint failedReads (h : list Event) (checked : list (string * JsProp))
  : list string :=
  match checked with
  | [] => []
  | (p, _) :: r =>
      match readMedia env h p with
      | None => p :: failedReads h r
      | Some _ => failedReads h r
      end
  end.

(** All reads are started before any is awaited, and [Promise.all]
    rejects with the failure that comes first in time: one of the failed
    reads, which one being up to the environment. *)
Definition readAll (h : list Event) (checked : list (string * JsProp))
  : Result (list MediaData) :=
  match readInOrder h checked with
  | Some l => Ok l
  | None =>
      let failed := failedReads h checked in
      let q := firstToReject env h failed in
      Err (MediaUnreadable (if existsb (String.eqb q) failed then q
                            else hd q failed))
  end.

(** [Promise.all(mediaPaths.map(async path => ...))].  Promises rejected
    before their first [await] settle [Promise.all] ahead of every file
    read, the first of them in list order; otherwise all reads must
    succeed. *)
Definition resolveMedia (h : list Event) (paths : list string)
  : Result (list MediaData) :=
  match checkExtensions paths with
  | Err e => Err e
  | Ok checked => readAll h checked
  end.

Definition sendTweet (text : string) (paths : list string) : M unit :=
  h <- history ;;
  mediaData <- (if (0 <? List.length paths)%nat
                then match resolveMedia h paths with
                     | Ok l => ret (Some l)
                     | Err e => throw e
                     end
                else ret None) ;;
  emit (Publish text mediaData) ;;;
  if sendTweetOk env h text mediaData then ret tt else throw PublishFailed.

(** [tweets.slice(0, count)] for [count > 0] *)
Definition slice0 {A} (count : Z) (l : list A) : list A :=
  firstn (Z.to_nat count) l.

Definition tweetsToSend (options : ScheduleOptions) (tweets : list TweetConfig)
  : list TweetConfig :=
  if tweetCount options >? 0 then slice0 (tweetCount options) tweets else tweets.

Definition effectiveDelayMinutes (options : ScheduleOptions) : Z :=
  Z.max (delayMinutes options) MIN_DELAY_MINUTES.

(** [delayMinutes * 60 * 1000], each product a double. *)
Definition delayMs (options : ScheduleOptions) : Z :=
  Num.toDouble (Num.toDouble (effectiveDelayMinutes options * 60) * 1000).

(** [tweet.mediaPaths || []] *)
Definition pathsOf (tweet : TweetConfig) : list string :=
  match mediaPaths tweet with Some l => l | None => [] end.

(** The [for] loop of [sendConfiguredTweets], from index [i] on the
    tweets not yet visited. *)
Fixpoint sendLoop (ms : Z) (i : nat) (rest : list TweetConfig) : M unit :=
  match rest with
  | [] => ret tt
  | tweet :: rest' =>
      (if (0 <? i)%nat then emit (Wait ms) else ret tt) ;;;
      sendTweet (content tweet) (pathsOf tweet) ;;;
      sendLoop ms (S i) rest'
  end.

Definition sendConfiguredTweets (configPath : string) (options : ScheduleOptions)
  : M unit :=
  tweets <- loadTweetsConfig configPath ;;
  sendLoop (delayMs options) 0 (tweetsToSend options tweets).

End Client.

(** [main]: exit code 0 when the promise chain completes, 1 from the
    [catch]. *)
Definition main (env : Env) (argv : list string) (w : World) : Z * World :=
  match parseArgs argv with
  | Err _ => (1, w)
  | Ok options =>
      let client := defaultClient in
      match (login env client ;;;
             sendConfiguredTweets env "./tweets.json" options) w with
      | (Ok _, w') => (0, w')
      | (Err _, w') => (1, w')
      end
  end.

(** ** Reading traces *)

(** The events a computation added to the trace of [w], given its final
    world [w']. *)
Definition since (w w' : World) : list Event :=
  skipn (List.length (trace w)) (trace w').

(** A run extends the trace; [extends w w' evs] also records that the cookie
    file is untouched. *)
Definition extends (w w' : World) (evs : list Event) : Prop :=
  w' = mkWorld (trace w ++ evs) (cookieFile w).

(** The dispatch view of a trace: waits and publish calls. *)
Inductive Step : Type :=
| SWait (ms : Z)
| SPublish (text : string).

Definition stepOf (e : Event) : list Step :=
  match e with
  | Wait ms => [SWait ms]
  | Publish text _ => [SPublish text]
  | _ => []
  end.

Definition stepsOf (evs : list Event) : list Step := flat_map stepOf evs.

(** The schedule of a complete dispatch of [l] from index [i]: no wait
    before index 0, one wait of [ms] before every later publish. *)
Fixpoint plan (ms : Z) (i : nat) (l : list TweetConfig) : list Step :=
  match l with
  | [] => []
  | tweet :: rest =>
      ((if (0 <? i)%nat then [SWait ms] else []) ++
       SPublish (content tweet) :: plan ms (S i) rest)%list
  end.

Definition prefix {A} (l1 l2 : list A) : Prop := exists r, l2 = (l1 ++ r)%list.

Definition published (evs : list Event) : list string :=
  flat_map (fun e => match e with Publish text _ => [text] | _ => [] end) evs.

Definition isDispatch (e : Event) : bool :=
  match e with Wait _ | Publish _ _ => true | _ => false end.

Definition isSetCookies (e : Event) : bool :=
  match e with SetCookies _ => true | _ => false end.

Definition isLogin (e : Event) : bool :=
  match e with Login => true | _ => false end.

(** An environment in which every external operation succeeds. *)
Definition happyEnv (tweets : list RawTweet) (t0 : Z) (stored : JsonCookies) : Env :=
  mkEnv (fun _ => t0) (fun _ => stored) (fun _ => "{}")
        (fun _ _ => true) (fun _ => true) (fun _ => Some ["auth_token=1"])
        (fun _ _ => true) (fun _ => TweetsArray (map EntryObject tweets))
        (fun _ _ => Some "bytes") (fun _ _ _ => true)
        (fun _ failed => hd "" failed).

(** An environment in which the remote rejects every publish call. *)
Definition rejectingEnv (tweets : list RawTweet) : Env :=
  mkEnv (fun _ => 0) (fun _ => ParseThrows) (fun _ => "{}")
        (fun _ _ => true) (fun _ => true) (fun _ => Some [])
        (fun _ _ => true) (fun _ => TweetsArray (map EntryObject tweets))
        (fun _ _ => Some "bytes") (fun _ _ _ => false)
        (fun _ failed => hd "" failed).

Definition emptyWorld : World := mkWorld [] Missing.

(** The spec's wording for an acceptable count argument: a decimal numeral
    of a positive integer. *)
Definition isPositiveInteger (s : string) : bool :=
  let (ds, rest) := Str.spanDigits s in
  negb (String.eqb ds "") && String.eqb rest "" &&
  match Num.parseInt ds with Some n => 1 <=? n | None => false end.

(** ** Vocabulary of the statements *)

(** The media argument of the publish call: [undefined] without paths. *)
Definition mediaFor (env : Env) (h : list Event) (paths : list string)
  : Result (option (list MediaData)) :=
  match paths with
  | [] => Ok None
  | _ => match resolveMedia env h paths with
         | Ok l => Ok (Some l)
         | Err e => Err e
         end
  end.

(** The events of the wait that precedes the post of index [i]. *)
Definition waitBefore (ms : Z) (i : nat) : list Event :=
  if (0 <? i)%nat then [Wait ms] else [].

Definition publishedSteps (st : list Step) : list string :=
  flat_map (fun s => match s with SPublish text => [text] | SWait _ => [] end) st.

(** What [loadCookies] yields in a world. *)
Definition cached (env : Env) (w : World) : option StoredCookies :=
  match cookieFile w with
  | Content text => match parseCookies env text with
                    | Parsed c => Some c
                    | _ => None
                    end
  | _ => None
  end.

Definition addEvent (w : World) (e : Event) : World :=
  mkWorld (trace w ++ [e]) (cookieFile w).

(** The integer a string of decimal digits denotes. *)
Fixpoint decimalFrom (acc : Z) (s : string) : Z :=
  match s with
  | EmptyString => acc
  | String c r => decimalFrom (acc * 10 + (Z.of_nat (nat_of_ascii c) - 48)) r
  end.

Definition decimalValue (s : string) : Z := decimalFrom 0 s.

(** A numeral: decimal digits only. *)
Fixpoint allDigits (s : string) : bool :=
  match s with
  | EmptyString => true
  | String c r => Str.isDigit c && allDigits r
  end.

(** An option with a value that the loop rejects. *)
Definition rejected (name v : string) : Prop :=
  (name = "--delay" /\ matchTime v = None) \/
  (name = "--count" /\ match Num.parseInt v with Some n => n < 1 | None => True end).

(** ** index.ts: the single-tweet script

    [sendTweet] of the script creates a scraper, logs in with the
    credentials of the environment, resolves the media with the same
    callback and table as [TwitterClient.sendTweet], and publishes. *)
Definition sendTweetScript (env : Env) (text : string) (paths : list string)
  : M unit :=
  h0 <- history ;;
  emit Login ;;;
  (if loginOk env h0 then ret tt else throw LoginFailed) ;;;
  h <- history ;;
  mediaData <- (if (0 <? List.length paths)%nat
                then match resolveMedia env h paths with
                     | Ok l => ret (Some l)
                     | Err e => throw e
                     end
                else ret None) ;;
  emit (Publish text mediaData) ;;;
  if sendTweetOk env h text mediaData then ret tt else throw PublishFailed.

(** ** Further vocabulary *)

(** The durations of the timed waits of a trace, in order. *)
Definition waits (evs : list Event) : list Z :=
  flat_map (fun e => match e with Wait ms => [ms] | _ => [] end) evs.

Definition waitSteps (st : list Step) : list Z :=
  flat_map (fun s => match s with SWait ms => [ms] | SPublish _ => [] end) st.

(** The time each timer of a trace runs, in order, and their sum. *)
Definition pauses (evs : list Event) : list Z := map Num.timerDelay (waits evs).

Definition totalPause (evs : list Event) : Z := fold_right Z.add 0 (pauses evs).

Definition isWrite (e : Event) : bool :=
  match e with WriteCookies _ => true | _ => false end.

Definition isOptionName (a : string) : bool :=
  String.eqb a "--delay" || String.eqb a "--count".

(** An environment whose only unreadable file is [gone.png]. *)
Definition missingFileEnv : Env :=
  mkEnv (fun _ => 0) (fun _ => ParseThrows) (fun _ => "{}")
        (fun _ _ => true) (fun _ => true) (fun _ => Some [])
        (fun _ _ => true) (fun _ => TweetsArray [])
        (fun _ p => if String.eqb p "gone.png" then None else Some "bytes")
        (fun _ _ _ => true)
        (fun _ failed => hd "" failed).

(** An environment whose remote rejects every cookie set; the cache holds
    cookies stamped 5 ms before the clock's 10. *)
Definition pickyEnv : Env :=
  mkEnv (fun _ => 10) (fun _ => Parsed (mkStored ["old"] 5)) (fun _ => "{}")
        (fun _ _ => false) (fun _ => true) (fun _ => Some ["new"])
        (fun _ _ => true) (fun _ => TweetsArray [])
        (fun _ _ => None) (fun _ _ _ => true)
        (fun _ failed => hd "" failed).

(** An environment whose remote refuses the credentials. *)
Definition lockedOutEnv (tweets : list RawTweet) : Env :=
  mkEnv (fun _ => 0) (fun _ => ParseThrows) (fun _ => "{}")
        (fun _ _ => true) (fun _ => false) (fun _ => Some [])
        (fun _ _ => true) (fun _ => TweetsArray (map EntryObject tweets))
        (fun _ _ => Some "bytes") (fun _ _ _ => true)
        (fun _ failed => hd "" failed).

(** An entry that passes the check of [forEach]. *)
Definition hasContent (entry : JsonEntry) : Prop :=
  exists r c, entry = EntryObject r /\ rawContent r = Some c /\ c <> "".

(** An environment whose tweets file is [[{"content": "A"}, null]]. *)
Definition nullEntryEnv : Env :=
  mkEnv (fun _ => 0) (fun _ => ParseThrows) (fun _ => "{}")
        (fun _ _ => true) (fun _ => true) (fun _ => Some [])
        (fun _ _ => true)
        (fun _ => TweetsArray [EntryObject (mkRaw (Some "A") None); EntryNull])
        (fun _ _ => Some "bytes") (fun _ _ _ => true)
        (fun _ failed => hd "" failed).

(** * Properties *)

Example parseArgs_readme :
  parseArgs ["--delay"; "4min"; "--count"; "5"] = Ok (mkOptions 4 5).
Proof. reflexivity. Qed.


(** ** Lists and traces *)

Lemma prefix_refl {A} (l : list A) : prefix l l.
Proof. exists []. now rewrite app_nil_r. Qed.

Lemma prefix_nil {A} (l : list A) : prefix [] l.
Proof. now exists l. Qed.

Lemma prefix_app {A} (a l1 l2 : list A) :
  prefix l1 l2 -> prefix (a ++ l1) (a ++ l2).
Proof. intros [r ->]. exists r. now rewrite app_assoc. Qed.

Lemma prefix_app_l {A} (l r : list A) : prefix l (l ++ r).
Proof. now exists r. Qed.

Lemma prefix_length {A} (l1 l2 : list A) :
  prefix l1 l2 -> (List.length l1 <= List.length l2)%nat.
Proof. intros [r ->]. rewrite length_app. lia. Qed.

Lemma stepsOf_app (a b : list Event) :
  stepsOf (a ++ b) = (stepsOf a ++ stepsOf b)%list.
Proof. unfold stepsOf. apply flat_map_app. Qed.

Lemma published_app (a b : list Event) :
  published (a ++ b) = (published a ++ published b)%list.
Proof. unfold published. apply flat_map_app. Qed.

Lemma since_extends (w w' : World) (evs : list Event) :
  extends w w' evs -> since w w' = evs.
Proof.
  unfold extends, since. intros ->. simpl.
  rewrite skipn_app, skipn_all, Nat.sub_diag. reflexivity.
Qed.

Lemma extends_nil (w : World) : extends w w [].
Proof. unfold extends. rewrite app_nil_r. now destruct w. Qed.

Lemma extends_trans (w1 w2 w3 : World) (a b : list Event) :
  extends w1 w2 a -> extends w2 w3 b -> extends w1 w3 (a ++ b).
Proof.
  unfold extends. intros -> ->. simpl. now rewrite app_assoc.
Qed.

(** ** One tweet *)

Lemma sendTweet_eq (env : Env) (text : string) (paths : list string) (w : World) :
  sendTweet env text paths w =
  match mediaFor env (trace w) paths with
  | Err e => (Err e, w)
  | Ok m => (if sendTweetOk env (trace w) text m then Ok tt else Err PublishFailed,
             mkWorld (trace w ++ [Publish text m]) (cookieFile w))
  end.
Proof.
  unfold sendTweet, mediaFor, bind, history, emit, ret, throw.
  destruct paths as [|p r]; simpl.
  - now destruct (sendTweetOk env (trace w) text None).
  - destruct (resolveMedia env (trace w) (p :: r)) as [l|e]; simpl; auto.
    now destruct (sendTweetOk env (trace w) text (Some l)).
Qed.

Lemma checkExtensions_unsupported (paths : list string) (p : string) :
  In p paths -> truthy (getMimeType (extensionOf p)) = false ->
  exists q, checkExtensions paths = Err (UnsupportedMedia q) /\ In q paths
            /\ truthy (getMimeType (extensionOf q)) = false.
Proof.
  induction paths as [|a r IH]; simpl; [easy|].
  intros Hin Hp. unfold checkExtension.
  destruct (truthy (getMimeType (extensionOf a))) eqn:Ha.
  - destruct Hin as [->|Hin]; [congruence|].
    destruct (IH Hin Hp) as (q & -> & Hq & Hq'). eauto.
  - exists a. auto.
Qed.

Lemma mediaFor_unsupported (env : Env) (h : list Event) (paths : list string) (p : string) :
  In p paths -> truthy (getMimeType (extensionOf p)) = false ->
  exists q, mediaFor env h paths = Err (UnsupportedMedia q) /\ In q paths
            /\ truthy (getMimeType (extensionOf q)) = false.
Proof.
  intros Hin Hp. destruct (checkExtensions_unsupported paths p Hin Hp) as (q & Hq & Hq').
  exists q. split; [|exact Hq'].
  destruct paths as [|a r]; [easy|].
  unfold mediaFor, resolveMedia. now rewrite Hq.
Qed.

(** ** The dispatch loop *)

Lemma sendLoop_cons (env : Env) (ms : Z) (i : nat) (tweet : TweetConfig)
      (rest : list TweetConfig) (w : World) :
  sendLoop env ms i (tweet :: rest) w =
  let w1 := mkWorld (trace w ++ waitBefore ms i) (cookieFile w) in
  match sendTweet env (content tweet) (pathsOf tweet) w1 with
  | (Ok _, w2) => sendLoop env ms (S i) rest w2
  | (Err e, w2) => (Err e, w2)
  end.
Proof.
  simpl. unfold bind, waitBefore, pathsOf.
  destruct (0 <? i)%nat; simpl.
  - reflexivity.
  - unfold ret. rewrite app_nil_r. now destruct w.
Qed.

(** Whatever the environment does, the loop only adds waits and publish
    calls, in the order of the plan; it adds the whole plan when it
    completes. *)
Lemma sendLoop_trace (env : Env) (ms : Z) (l : list TweetConfig) :
  forall (i : nat) (w : World),
  exists evs,
    extends w (snd (sendLoop env ms i l w)) evs /\
    forallb isDispatch evs = true /\
    prefix (stepsOf evs) (plan ms i l) /\
    (fst (sendLoop env ms i l w) = Ok tt -> stepsOf evs = plan ms i l).
Proof.
  induction l as [|tweet rest IH]; intros i w.
  - exists []. simpl. repeat split; auto using extends_nil, prefix_nil.
  - rewrite sendLoop_cons. cbv zeta. rewrite sendTweet_eq. cbn [trace cookieFile].
    set (w1 := mkWorld (trace w ++ waitBefore ms i) (cookieFile w)).
    assert (Hw1 : extends w w1 (waitBefore ms i)) by reflexivity.
    assert (Hs : stepsOf (waitBefore ms i) = if (0 <? i)%nat then [SWait ms] else []).
    { unfold waitBefore. now destruct (0 <? i)%nat. }
    assert (Hd : forallb isDispatch (waitBefore ms i) = true).
    { unfold waitBefore. now destruct (0 <? i)%nat. }
    destruct (mediaFor env (trace w ++ waitBefore ms i) (pathsOf tweet)) as [m|e].
    + set (w2 := mkWorld _ _).
      assert (Hw2 : extends w w2 (waitBefore ms i ++ [Publish (content tweet) m])).
      { unfold extends, w2. now rewrite app_assoc. }
      assert (Hs2 : stepsOf (waitBefore ms i ++ [Publish (content tweet) m]) =
                    ((if (0 <? i)%nat then [SWait ms] else []) ++ [SPublish (content tweet)])%list).
      { now rewrite stepsOf_app, Hs. }
      destruct (sendTweetOk env _ (content tweet) m).
      * destruct (IH (S i) w2) as (evs & Hext & Hdis & Hpre & Hok).
        exists ((waitBefore ms i ++ [Publish (content tweet) m]) ++ evs)%list.
        rewrite stepsOf_app, Hs2. cbn [plan].
        split; [eapply extends_trans; eassumption|].
        split; [rewrite !forallb_app, Hd, Hdis; reflexivity|].
        replace ((if (0 <? i)%nat then [SWait ms] else []) ++
                 SPublish (content tweet) :: plan ms (S i) rest)%list
          with (((if (0 <? i)%nat then [SWait ms] else []) ++
                 [SPublish (content tweet)]) ++ plan ms (S i) rest)%list
          by now rewrite <- app_assoc.
        split; [now apply prefix_app|].
        intros H. now rewrite (Hok H).
      * exists (waitBefore ms i ++ [Publish (content tweet) m])%list.
        rewrite Hs2. cbn [plan fst snd].
        split; [exact Hw2|].
        split; [rewrite forallb_app, Hd; reflexivity|].
        split; [|discriminate].
        exists (plan ms (S i) rest). now rewrite <- app_assoc.
    + exists (waitBefore ms i). rewrite Hs. cbn [plan fst snd].
      split; [exact Hw1|].
      split; [exact Hd|].
      split; [apply prefix_app_l|discriminate].
Qed.

(** ** A configured run *)

Lemma loadTweetsConfig_pure (env : Env) (configPath : string) (w w' : World)
      (r : Result (list TweetConfig)) :
  loadTweetsConfig env configPath w = (r, w') ->
  w' = w /\ forall w2, loadTweetsConfig env configPath w2 = (r, w2).
Proof.
  unfold loadTweetsConfig, throw, ret.
  destruct (tweetsFile env configPath) as [| |items];
    [| |destruct (validateTweets 0 items)];
    intros H; injection H as <- <-; auto.
Qed.

Lemma sendConfiguredTweets_loaded (env : Env) (configPath : string)
      (options : ScheduleOptions) (tweets : list TweetConfig) (w w0 : World) :
  loadTweetsConfig env configPath w = (Ok tweets, w0) ->
  sendConfiguredTweets env configPath options w =
  sendLoop env (delayMs options) 0 (tweetsToSend options tweets) w.
Proof.
  intros H. destruct (loadTweetsConfig_pure _ _ _ _ _ H) as [-> _].
  unfold sendConfiguredTweets, bind. now rewrite H.
Qed.

Lemma published_steps (evs : list Event) :
  published evs = publishedSteps (stepsOf evs).
Proof.
  induction evs as [|e r IH]; [reflexivity|].
  change (e :: r) with ([e] ++ r)%list.
  rewrite published_app, stepsOf_app. unfold publishedSteps in *.
  rewrite flat_map_app, <- IH. now destruct e.
Qed.

Lemma publishedSteps_plan (ms : Z) (l : list TweetConfig) :
  forall i, publishedSteps (plan ms i l) = map content l.
Proof.
  induction l as [|t r IH]; intros i; [reflexivity|].
  cbn [plan map]. unfold publishedSteps in *. rewrite flat_map_app.
  cbn [flat_map app]. rewrite IH. now destruct (0 <? i)%nat.
Qed.

Lemma publishedSteps_prefix (a b : list Step) :
  prefix a b -> prefix (publishedSteps a) (publishedSteps b).
Proof.
  intros [r ->]. exists (publishedSteps r). unfold publishedSteps. apply flat_map_app.
Qed.

Lemma plan_waits (ms x : Z) (l : list TweetConfig) :
  forall i, In (SWait x) (plan ms i l) -> x = ms.
Proof.
  induction l as [|t r IH]; intros i; cbn [plan]; [easy|].
  rewrite in_app_iff. intros [H|[H|H]].
  - destruct (0 <? i)%nat; [|easy]. destruct H as [H|[]]. congruence.
  - discriminate H.
  - eauto.
Qed.

Lemma stepsOf_wait (x : Z) (evs : list Event) :
  In (Wait x) evs -> In (SWait x) (stepsOf evs).
Proof.
  intros H. unfold stepsOf. apply in_flat_map. exists (Wait x). simpl. auto.
Qed.

(** The shape of a plan that starts at index 0. *)
Lemma plan_shape (ms : Z) (l : list TweetConfig) :
  forall i, (0 < i)%nat ->
  plan ms i l = flat_map (fun t => [SWait ms; SPublish (content t)]) l.
Proof.
  induction l as [|t r IH]; intros i Hi; [reflexivity|].
  cbn [plan flat_map]. rewrite (IH (S i)) by lia.
  destruct (Nat.ltb_spec 0 i); [reflexivity|lia].
Qed.

Lemma plan_first (ms : Z) (t : TweetConfig) (r : list TweetConfig) :
  plan ms 0 (t :: r) =
  SPublish (content t) :: flat_map (fun t' => [SWait ms; SPublish (content t')]) r.
Proof. cbn [plan]. rewrite (plan_shape ms r 1) by lia. reflexivity. Qed.

(** Summary of a run whose tweets file loaded. *)
Lemma run_trace (env : Env) (configPath : string) (options : ScheduleOptions)
      (tweets : list TweetConfig) (w w0 : World) :
  loadTweetsConfig env configPath w = (Ok tweets, w0) ->
  let run := sendConfiguredTweets env configPath options w in
  let evs := since w (snd run) in
  extends w (snd run) evs /\
  forallb isDispatch evs = true /\
  prefix (stepsOf evs) (plan (delayMs options) 0 (tweetsToSend options tweets)) /\
  (fst run = Ok tt ->
   stepsOf evs = plan (delayMs options) 0 (tweetsToSend options tweets)).
Proof.
  intros H. cbv zeta. rewrite (sendConfiguredTweets_loaded _ _ options _ _ _ H).
  destruct (sendLoop_trace env (delayMs options) (tweetsToSend options tweets) 0 w)
    as (evs & Hext & Hdis & Hpre & Hok).
  rewrite (since_extends _ _ _ Hext). auto.
Qed.

(** ** Effective delay *)

(** C1: the loop computes [max(delayMinutes, 2) * 60 * 1000] and arms its
    timer with it, but a timer takes a 32-bit delay.  With [--delay 35792],
    which [parseArgs] accepts, the product 2147520000 is out of range and
    the timer runs 1 ms instead of 35792 minutes; with [--delay 35791] it
    still runs in full. *)
Theorem timer_overflow_shortens_delay :
  parseArgs ["--delay"; "35792"] = Ok (mkOptions 35792 0) /\
  effectiveDelayMinutes (mkOptions 35792 0) = Z.max 35792 2 /\
  delayMs (mkOptions 35792 0) = 35792 * 60000 /\
  Num.timerDelay (delayMs (mkOptions 35792 0)) = 1 /\
  Num.timerDelay (delayMs (mkOptions 35791 0)) = 35791 * 60000 /\
  pauses (since emptyWorld
            (snd (main (happyEnv [mkRaw (Some "A") None; mkRaw (Some "B") None]
                                 0 ParseThrows)
                       ["--delay"; "35792"] emptyWorld)))
  = [1].
Proof. repeat split; vm_compute; reflexivity. Qed.

(** ** Command-line arguments *)

(** Induction following the loop of [parseArgs], which consumes one or two
    arguments per iteration. *)
Lemma args_ind (P : list string -> Prop) :
  P [] -> (forall a, P [a]) ->
  (forall a v r, P r -> P (v :: r) -> P (a :: v :: r)) ->
  forall l, P l.
Proof.
  intros H0 H1 H2 l.
  enough (P l /\ forall a, P (a :: l)) by tauto.
  induction l as [|v r [IH1 IH2]]; split; auto.
Qed.

Lemma parseArgsFrom_no_count (args : list string) :
  forall (d c : Z) (o : ScheduleOptions),
  ~ In "--count" args -> parseArgsFrom args d c = Ok o -> tweetCount o = c.
Proof.
  induction args as [|a|a v r IHr IHvr] using args_ind; intros d c o Hno.
  - simpl. intros [= <-]. reflexivity.
  - simpl. intros [= <-]. reflexivity.
  - cbn [parseArgsFrom].
    destruct (String.eqb a "--delay").
    + destruct (parseTimeString v) as [d'|e]; [|discriminate].
      apply IHr. intros Hin. apply Hno. simpl. auto.
    + destruct (String.eqb_spec a "--count") as [->|_].
      * exfalso. apply Hno. simpl. auto.
      * apply IHvr. intros Hin. apply Hno. simpl. auto.
Qed.

(** ** Working set *)

(** C2: with [count = 0] -- also when [--count] is omitted -- the working
    set is the full list in its order; with [count = k > 0] it is the first
    [k] items in their order; the texts passed to the publish operation are,
    in order, those of an initial part of the working set (all of it when
    the run completes), so the [j]-th publish call is for item [j < k] and
    no item at index [k] or beyond is passed. *)
Theorem working_set_truncation (env : Env) (configPath : string)
        (options : ScheduleOptions) (tweets : list TweetConfig) (w w0 : World) :
  loadTweetsConfig env configPath w = (Ok tweets, w0) ->
  let run := sendConfiguredTweets env configPath options w in
  let evs := since w (snd run) in
  (tweetCount options = 0 -> tweetsToSend options tweets = tweets) /\
  (forall argv, ~ In "--count" argv -> parseArgs argv = Ok options ->
                tweetsToSend options tweets = tweets) /\
  (0 < tweetCount options ->
   tweetsToSend options tweets = firstn (Z.to_nat (tweetCount options)) tweets) /\
  prefix (published evs) (map content (tweetsToSend options tweets)) /\
  (fst run = Ok tt -> published evs = map content (tweetsToSend options tweets)) /\
  (0 < tweetCount options ->
   forall (j : nat) (text : string),
     nth_error (published evs) j = Some text ->
     Z.of_nat j < tweetCount options /\
     exists t, nth_error tweets j = Some t /\ content t = text).
Proof.
  intros Hload run evs.
  destruct (run_trace env configPath options tweets w w0 Hload)
    as (_ & _ & Hpre & Hok).
  fold run in Hpre, Hok. fold evs in Hpre, Hok.
  assert (Hzero : tweetCount options = 0 -> tweetsToSend options tweets = tweets).
  { unfold tweetsToSend. now intros ->. }
  assert (Hpos : 0 < tweetCount options ->
                 tweetsToSend options tweets = firstn (Z.to_nat (tweetCount options)) tweets).
  { unfold tweetsToSend, slice0. intros H.
    destruct (Z.gtb_spec (tweetCount options) 0); [reflexivity|lia]. }
  assert (Hpub : prefix (published evs) (map content (tweetsToSend options tweets))).
  { rewrite published_steps, <- (publishedSteps_plan (delayMs options) _ 0%nat).
    now apply publishedSteps_prefix. }
  split; [exact Hzero|].
  split; [intros argv Hno Hp; apply Hzero; exact (parseArgsFrom_no_count argv 2 0 options Hno Hp)|].
  split; [exact Hpos|].
  split; [exact Hpub|].
  split.
  - intros H. rewrite published_steps, (Hok H). apply publishedSteps_plan.
  - intros Hk j text Hj. destruct Hpub as [r Hr]. rewrite (Hpos Hk) in Hr.
    assert (Hj' : nth_error (map content (firstn (Z.to_nat (tweetCount options)) tweets)) j
                  = Some text).
    { rewrite Hr, nth_error_app1; [exact Hj|]. apply nth_error_Some. congruence. }
    rewrite nth_error_map, nth_error_firstn in Hj'.
    destruct (Nat.ltb_spec j (Z.to_nat (tweetCount options))); [|discriminate].
    split; [lia|].
    destruct (nth_error tweets j) as [t|]; [|discriminate].
    exists t. split; [reflexivity|]. simpl in Hj'. congruence.
Qed.

Lemma working_set_truncation_witness :
  tweetsToSend (mkOptions 2 2)
    [mkTweet "A" None; mkTweet "B" None; mkTweet "C" None]
  = [mkTweet "A" None; mkTweet "B" None] /\
  published (since emptyWorld (snd (sendConfiguredTweets
     (happyEnv [mkRaw (Some "A") None; mkRaw (Some "B") None; mkRaw (Some "C") None]
               0 ParseThrows) "./tweets.json" (mkOptions 2 2) emptyWorld)))
  = ["A"; "B"].
Proof.
  pose (raw := [mkRaw (Some "A") None; mkRaw (Some "B") None; mkRaw (Some "C") None]).
  pose proof (working_set_truncation (happyEnv raw 0 ParseThrows) "./tweets.json"
                (mkOptions 2 2)
                [mkTweet "A" None; mkTweet "B" None; mkTweet "C" None]
                emptyWorld emptyWorld eq_refl) as H.
  cbv zeta in H. destruct H as (_ & _ & Hk & _ & Hok & _).
  split.
  - apply Hk. simpl. lia.
  - apply Hok. vm_compute. reflexivity.
Defined.

(** ** Order and pacing *)

(** C3: posts are published in order, one timer between two publish
    calls, but the timer does not always run the effective delay.  For
    [A; B; C] with [--count 2 --delay 35792] the run is: publish A, a timer
    armed with 2147520000 ms, publish B; that delay is beyond the 32-bit
    range of a timer, which then runs 1 ms, so B follows A after 1 ms and
    not after the effective delay. *)
Theorem timer_overflow_in_dispatch :
  let env := happyEnv [mkRaw (Some "A") None; mkRaw (Some "B") None;
                       mkRaw (Some "C") None] 0 ParseThrows in
  let run := sendConfiguredTweets env "./tweets.json" (mkOptions 35792 2) emptyWorld in
  parseArgs ["--count"; "2"; "--delay"; "35792"] = Ok (mkOptions 35792 2) /\
  fst run = Ok tt /\
  since emptyWorld (snd run)
  = [Publish "A" None; Wait (35792 * 60000); Publish "B" None] /\
  pauses (since emptyWorld (snd run)) = [1].
Proof. cbv zeta. repeat split; vm_compute; reflexivity. Qed.

(** ** Count beyond the end of the list *)

(** C8: a count larger than the number of loaded posts is not an error:
    [slice] clamps, the working set is the entire list, the run is the very
    run of [count = 0], and a run that completes has published exactly [n]
    posts, [n] the length of the list (never more than [n] in any run). *)
Theorem count_beyond_length (env : Env) (configPath : string)
        (options : ScheduleOptions) (tweets : list TweetConfig) (w w0 : World) :
  loadTweetsConfig env configPath w = (Ok tweets, w0) ->
  Z.of_nat (List.length tweets) < tweetCount options ->
  let run := sendConfiguredTweets env configPath options w in
  let evs := since w (snd run) in
  tweetsToSend options tweets = tweets /\
  run = sendConfiguredTweets env configPath (mkOptions (delayMinutes options) 0) w /\
  (List.length (published evs) <= List.length tweets)%nat /\
  (fst run = Ok tt ->
   published evs = map content tweets /\
   List.length (published evs) = List.length tweets).
Proof.
  intros Hload Hk run evs.
  assert (Hws : tweetsToSend options tweets = tweets).
  { unfold tweetsToSend, slice0.
    destruct (Z.gtb_spec (tweetCount options) 0); [|reflexivity].
    apply firstn_all2. lia. }
  destruct (run_trace env configPath options tweets w w0 Hload)
    as (_ & _ & Hpre & Hok).
  fold run in Hpre, Hok. fold evs in Hpre, Hok. rewrite Hws in Hpre, Hok.
  split; [exact Hws|].
  split.
  { unfold run.
    rewrite (sendConfiguredTweets_loaded _ _ options _ _ _ Hload),
            (sendConfiguredTweets_loaded _ _ (mkOptions _ 0) _ _ _ Hload), Hws.
    reflexivity. }
  split.
  - apply publishedSteps_prefix in Hpre. rewrite <- published_steps in Hpre.
    rewrite publishedSteps_plan in Hpre. apply prefix_length in Hpre.
    now rewrite length_map in Hpre.
  - intros H. rewrite published_steps, (Hok H), publishedSteps_plan.
    split; [reflexivity|apply length_map].
Qed.

Lemma count_beyond_length_witness :
  published (since emptyWorld (snd (sendConfiguredTweets
     (happyEnv [mkRaw (Some "A") None; mkRaw (Some "B") None] 0 ParseThrows)
     "./tweets.json" (mkOptions 2 5) emptyWorld)))
  = ["A"; "B"].
Proof.
  pose (raw := [mkRaw (Some "A") None; mkRaw (Some "B") None]).
  pose proof (count_beyond_length (happyEnv raw 0 ParseThrows) "./tweets.json"
                (mkOptions 2 5) [mkTweet "A" None; mkTweet "B" None]
                emptyWorld emptyWorld eq_refl) as H.
  cbv zeta in H. destruct H as (_ & _ & _ & Hok); [simpl; lia|].
  apply Hok. vm_compute. reflexivity.
Defined.

(** ** Session cache *)

Lemma loadCookies_eq (env : Env) (w : World) :
  loadCookies env w = (Ok (cached env w), w).
Proof.
  unfold loadCookies, cached.
  destruct (cookieFile w) as [| |text]; auto.
  now destruct (parseCookies env text).
Qed.

Lemma credentialLogin_eq (env : Env) (w : World) :
  credentialLogin env w =
  let w1 := addEvent w Login in
  if loginOk env (trace w) then
    let w2 := addEvent w1 GetCookies in
    match getCookies env (trace w1) with
    | Some newCookies => saveCookies env newCookies w2
    | None => (Err GetCookiesFailed, w2)
    end
  else (Err LoginFailed, w1).
Proof.
  unfold credentialLogin, bind, history, emit, ret, throw, addEvent. cbn.
  destruct (loginOk env (trace w)); [|reflexivity].
  cbn [trace cookieFile].
  now destruct (getCookies env (trace w ++ [Login])).
Qed.

Lemma login_eq (env : Env) (client : TwitterClient) (w : World) :
  login env client w =
  match cached env w with
  | Some stored =>
      if areCookiesValid (now env (trace w)) (cookieExpirationMs client) stored then
        if setCookiesOk env (trace w) (cookies stored)
        then (Ok tt, addEvent w (SetCookies (cookies stored)))
        else credentialLogin env (addEvent w (SetCookies (cookies stored)))
      else credentialLogin env w
  | None => credentialLogin env w
  end.
Proof.
  unfold login, bind. rewrite loadCookies_eq. unfold history at 1.
  destruct (cached env w) as [stored|]; [|reflexivity].
  destruct (areCookiesValid _ _ stored); [|reflexivity].
  unfold emit, ret, addEvent. cbn.
  now destruct (setCookiesOk env (trace w) (cookies stored)).
Qed.

Lemma saveCookies_eq (env : Env) (cs : list string) (w : World) :
  saveCookies env cs w =
  let text := stringify env (mkStored cs (now env (trace w))) in
  if writeOk env (trace w) text
  then (Ok tt, mkWorld (trace w ++ [WriteCookies text]) (Content text))
  else (Err WriteFailed, addEvent w (WriteCookies text)).
Proof. reflexivity. Qed.

(** The credential path starts with the login call and never applies
    cookies. *)
Lemma credentialLogin_trace (env : Env) (w : World) :
  exists evs,
    trace (snd (credentialLogin env w)) = (trace w ++ Login :: evs)%list /\
    existsb isSetCookies evs = false.
Proof.
  rewrite credentialLogin_eq. cbv zeta.
  destruct (loginOk env (trace w)).
  - destruct (getCookies env _) as [cs|].
    + rewrite saveCookies_eq. cbv zeta. cbn [addEvent trace].
      destruct (writeOk env _ _); cbn [snd trace addEvent];
        rewrite <- !app_assoc; eexists; split; reflexivity.
    + cbn [snd trace addEvent]. rewrite <- !app_assoc. eexists. split; reflexivity.
  - cbn. exists []. split; reflexivity.
Qed.

Lemma since_app (w w' : World) (evs : list Event) :
  trace w' = (trace w ++ evs)%list -> since w w' = evs.
Proof.
  unfold since. intros ->.
  rewrite skipn_app, skipn_all, Nat.sub_diag. reflexivity.
Qed.

(** C5: the freshness check holds exactly when [now - issuedAt] is below
    the max age, 24 hours by default (a client built for [h] hours checks
    against [h * 3600000] ms).  In [login], a cached record whose age has
    reached the max age is never applied: no [setCookies] call is made and
    the first operation is the credential login.  A fresh cached record that
    the remote accepts completes [login] with the single operation
    [setCookies]: no credential login. *)
Theorem cached_session_freshness (env : Env) (client : TwitterClient)
        (w : World) (stored : StoredCookies) :
  fst (loadCookies env w) = Ok (Some stored) ->
  let t := now env (trace w) in
  let evs := since w (snd (login env client w)) in
  (forall (dateNow maxAgeMs : Z) (r : StoredCookies),
      areCookiesValid dateNow maxAgeMs r = true <-> dateNow - timestamp r < maxAgeMs) /\
  cookieExpirationMs defaultClient = 24 * 60 * 60 * 1000 /\
  (forall hours, cookieExpirationMs (newTwitterClient hours) = hours * 3600000) /\
  (cookieExpirationMs client <= t - timestamp stored ->
   existsb isSetCookies evs = false /\ hd_error evs = Some Login) /\
  (t - timestamp stored < cookieExpirationMs client ->
   setCookiesOk env (trace w) (cookies stored) = true ->
   fst (login env client w) = Ok tt /\
   evs = [SetCookies (cookies stored)] /\
   existsb isLogin evs = false).
Proof.
  intros Hload t evs. rewrite loadCookies_eq in Hload. injection Hload as Hc.
  assert (Hspec : forall dateNow maxAgeMs r,
             areCookiesValid dateNow maxAgeMs r = true <-> dateNow - timestamp r < maxAgeMs).
  { intros. unfold areCookiesValid. apply Z.ltb_lt. }
  split; [exact Hspec|].
  split; [reflexivity|].
  split; [intros hours; unfold newTwitterClient; simpl; lia|].
  split.
  - intros Hold. unfold evs. rewrite login_eq, Hc.
    destruct (areCookiesValid _ _ stored) eqn:Hv.
    + apply Hspec in Hv. fold t in Hv. lia.
    + destruct (credentialLogin_trace env w) as (r & Htr & Hno).
      rewrite (since_app _ _ _ Htr). simpl. auto.
  - intros Hfresh Hok. unfold evs. rewrite login_eq, Hc.
    apply Hspec in Hfresh. fold t. rewrite Hfresh, Hok. cbn [fst snd].
    rewrite (since_app w (addEvent w _) [SetCookies (cookies stored)] eq_refl).
    auto.
Qed.

Lemma cached_session_freshness_witness :
  let stale := mkStored ["auth_token=0"] 0 in
  let fresh := mkStored ["auth_token=0"] 86400000 in
  let w := mkWorld [] (Content "{}") in
  hd_error (since w (snd (login (happyEnv [] 86400000 (Parsed stale)) defaultClient w)))
  = Some Login /\
  since w (snd (login (happyEnv [] 86400001 (Parsed fresh)) defaultClient w))
  = [SetCookies ["auth_token=0"]].
Proof.
  cbv zeta. split.
  - pose proof (cached_session_freshness
                  (happyEnv [] 86400000 (Parsed (mkStored ["auth_token=0"] 0)))
                  defaultClient (mkWorld [] (Content "{}"))
                  (mkStored ["auth_token=0"] 0) eq_refl) as H.
    cbv zeta in H. destruct H as (_ & _ & _ & Hstale & _).
    assert (Hage : cookieExpirationMs defaultClient <= 86400000 - 0) by (vm_compute; discriminate).
    exact (proj2 (Hstale Hage)).
  - pose proof (cached_session_freshness
                  (happyEnv [] 86400001 (Parsed (mkStored ["auth_token=0"] 86400000)))
                  defaultClient (mkWorld [] (Content "{}"))
                  (mkStored ["auth_token=0"] 86400000) eq_refl) as H.
    cbv zeta in H. destruct H as (_ & _ & _ & _ & Hfresh).
    assert (Hage : 86400001 - 86400000 < cookieExpirationMs defaultClient) by (vm_compute; reflexivity).
    exact (proj1 (proj2 (Hfresh Hage eq_refl))).
Defined.

(** C6: [loadCookies] never raises, whatever the state of the cache file;
    for a missing file, an unreadable file or content that does not parse it
    returns the absent value, and [login] is then the credential login
    (whose first operation is the login call). *)
Theorem missing_cache_is_absent (env : Env) (client : TwitterClient) (w : World) :
  (exists r, loadCookies env w = (Ok r, w)) /\
  (cookieFile w = Missing \/ cookieFile w = Unreadable \/
   (exists text, cookieFile w = Content text /\ parseCookies env text = ParseThrows) ->
   loadCookies env w = (Ok None, w) /\
   login env client w = credentialLogin env w /\
   hd_error (since w (snd (login env client w))) = Some Login).
Proof.
  split; [exists (cached env w); apply loadCookies_eq|].
  intros H.
  assert (Hc : cached env w = None).
  { unfold cached. destruct H as [->|[->|(text & -> & ->)]]; reflexivity. }
  assert (Hl : login env client w = credentialLogin env w).
  { rewrite login_eq, Hc. reflexivity. }
  split; [rewrite loadCookies_eq, Hc; reflexivity|].
  split; [exact Hl|].
  rewrite Hl. destruct (credentialLogin_trace env w) as (r & Htr & _).
  now rewrite (since_app _ _ _ Htr).
Qed.

Lemma missing_cache_is_absent_witness :
  loadCookies (happyEnv [] 0 ParseThrows) emptyWorld = (Ok None, emptyWorld) /\
  loadCookies (happyEnv [] 0 ParseThrows) (mkWorld [] (Content "{oops"))
  = (Ok None, mkWorld [] (Content "{oops")).
Proof.
  split.
  - apply (proj2 (missing_cache_is_absent (happyEnv [] 0 ParseThrows) defaultClient
                    emptyWorld)).
    left. reflexivity.
  - apply (proj2 (missing_cache_is_absent (happyEnv [] 0 ParseThrows) defaultClient
                    (mkWorld [] (Content "{oops")))).
    right. right. exists "{oops". split; reflexivity.
Defined.

(** C10: [saveCookies] writes one record, stamped with the clock reading of
    the write; when the write succeeds the cache file is that record's text
    whatever it held before; the record is fresh at the time of the write
    for every positive max age.  So it is for the record persisted by a
    successful credential login. *)
Theorem saved_session_is_fresh (env : Env) (cs : list string) (w : World) :
  let t := now env (trace w) in
  let record := mkStored cs t in
  let saved := saveCookies env cs w in
  cookies record = cs /\ timestamp record = t /\
  since w (snd saved) = [WriteCookies (stringify env record)] /\
  (fst saved = Ok tt ->
   cookieFile (snd saved) = Content (stringify env record) /\
   forall previous : FileState,
     cookieFile (snd (saveCookies env cs (mkWorld (trace w) previous)))
     = Content (stringify env record)) /\
  (forall maxAgeMs, 0 < maxAgeMs -> areCookiesValid t maxAgeMs record = true) /\
  (forall w', credentialLogin env w = (Ok tt, w') ->
     exists newCookies t',
       getCookies env (trace w ++ [Login]) = Some newCookies /\
       t' = now env (trace w ++ [Login; GetCookies]) /\
       trace w' = (trace w ++ [Login; GetCookies;
                     WriteCookies (stringify env (mkStored newCookies t'))])%list /\
       cookieFile w' = Content (stringify env (mkStored newCookies t')) /\
       (forall maxAgeMs, 0 < maxAgeMs ->
          areCookiesValid t' maxAgeMs (mkStored newCookies t') = true) /\
       (parseCookies env (stringify env (mkStored newCookies t'))
          = Parsed (mkStored newCookies t') ->
        loadCookies env w' = (Ok (Some (mkStored newCookies t')), w'))).
Proof.
  intros t record saved.
  assert (Hfresh : forall x c maxAgeMs, 0 < maxAgeMs ->
                     areCookiesValid x maxAgeMs (mkStored c x) = true).
  { intros x c m Hm. unfold areCookiesValid. simpl. apply Z.ltb_lt. lia. }
  split; [reflexivity|]. split; [reflexivity|].
  split.
  { unfold saved. rewrite saveCookies_eq. cbv zeta. fold t. fold record.
    destruct (writeOk env (trace w) (stringify env record)); now apply since_app. }
  split.
  { unfold saved. rewrite saveCookies_eq. cbv zeta. fold t. fold record.
    destruct (writeOk env (trace w) (stringify env record)) eqn:Hw; [|discriminate].
    intros _. split; [reflexivity|]. intros previous.
    rewrite saveCookies_eq. cbn [trace]. fold t. fold record. now rewrite Hw. }
  split; [intros; now apply Hfresh|].
  intros w'. rewrite credentialLogin_eq. cbv zeta.
  destruct (loginOk env (trace w)); [|discriminate].
  unfold addEvent. cbn [trace cookieFile].
  destruct (getCookies env (trace w ++ [Login])) as [newCookies|]; [|discriminate].
  rewrite saveCookies_eq. cbv zeta. cbn [trace].
  rewrite <- !app_assoc. cbn [app].
  set (t' := now env (trace w ++ [Login; GetCookies])).
  destruct (writeOk env _ _); [|discriminate].
  intros [= <-]. exists newCookies, t'.
  split; [reflexivity|]. split; [reflexivity|].
  split; [reflexivity|].
  split; [reflexivity|].
  split; [intros; now apply Hfresh|].
  intros Hround. rewrite loadCookies_eq. unfold cached. cbn [cookieFile].
  now rewrite Hround.
Qed.

Lemma saved_session_is_fresh_witness :
  let t := 1730000000000 in
  let record := mkStored ["auth_token=1"] t in
  let env := happyEnv [] t (Parsed record) in
  let w' := snd (credentialLogin env emptyWorld) in
  areCookiesValid t 1 record = true /\
  cookieFile (snd (saveCookies env ["auth_token=1"] (mkWorld [] Unreadable)))
  = Content "{}" /\
  cookieFile w' = Content "{}" /\
  loadCookies env w' = (Ok (Some record), w').
Proof.
  pose (t := 1730000000000).
  pose (record := mkStored ["auth_token=1"] t).
  pose proof (saved_session_is_fresh (happyEnv [] t (Parsed record))
                ["auth_token=1"] emptyWorld) as H.
  cbv zeta in H. destruct H as (_ & _ & _ & Hwrite & Hfresh & Hlogin).
  cbv zeta. split; [apply (Hfresh 1); lia|].
  split; [exact (proj2 (Hwrite eq_refl) Unreadable)|].
  destruct (Hlogin _ eq_refl) as (c & t' & Hc & Ht & _ & Hfile & _ & Hround).
  injection Hc as <-. subst t'.
  split; [exact Hfile|]. exact (Hround eq_refl).
Defined.

(** ** Validation of the arguments *)

Lemma parseTimeString_error (v : string) (e : Error) :
  parseTimeString v = Err e -> e = InvalidTimeFormat /\ matchTime v = None.
Proof.
  unfold parseTimeString. destruct (matchTime v) as [ds|].
  - now destruct (Num.parseInt ds).
  - intros [= <-]. auto.
Qed.

Lemma parseArgsFrom_error (args : list string) :
  forall (d c : Z) (e : Error),
  parseArgsFrom args d c = Err e -> isArgError e = true.
Proof.
  induction args as [|a|a v r IHr IHvr] using args_ind; intros d c e;
    try discriminate.
  cbn [parseArgsFrom].
  destruct (String.eqb a "--delay").
  - destruct (parseTimeString v) as [d'|e'] eqn:Hv; [apply IHr|].
    intros [= <-]. now destruct (parseTimeString_error v e' Hv) as [-> _].
  - destruct (String.eqb a "--count"); [|apply IHvr].
    destruct (Num.parseInt v) as [n|]; [destruct (n <? 1); [|apply IHr]|];
      now intros [= <-].
Qed.

Lemma rejected_head (name v : string) (post : list string) (d c : Z) :
  rejected name v -> exists e, parseArgsFrom (name :: v :: post) d c = Err e.
Proof.
  intros [[-> Hv]|[-> Hv]]; cbn [parseArgsFrom].
  - rewrite String.eqb_refl. unfold parseTimeString. rewrite Hv. eauto.
  - change (String.eqb "--count" "--delay") with false. cbv iota.
    rewrite String.eqb_refl.
    destruct (Num.parseInt v) as [n|]; [|eauto].
    destruct (Z.ltb_spec n 1); [eauto|lia].
Qed.

Lemma rejected_name (name v : string) :
  rejected name v -> parseTimeString name = Err InvalidTimeFormat /\
                     Num.parseInt name = None.
Proof. intros [[-> _]|[-> _]]; split; reflexivity. Qed.

(** Wherever a rejected option stands on the command line, parsing fails:
    either the loop reaches it, or it was consumed as the value of the
    option before it, which rejects it as well. *)
Lemma parseArgsFrom_rejected (name v : string) (post pre : list string) :
  rejected name v ->
  forall d c, exists e, parseArgsFrom (pre ++ name :: v :: post) d c = Err e.
Proof.
  intros Hrej.
  induction pre as [|a|a x r IHr IHxr] using args_ind; intros d c.
  - now apply rejected_head.
  - destruct (rejected_name name v Hrej) as [Ht Hp].
    cbn [app parseArgsFrom].
    destruct (String.eqb a "--delay"); [rewrite Ht; eauto|].
    destruct (String.eqb a "--count"); [rewrite Hp; eauto|].
    now apply rejected_head.
  - change ((a :: x :: r) ++ name :: v :: post)%list
      with (a :: x :: (r ++ name :: v :: post))%list.
    cbn [parseArgsFrom].
    destruct (String.eqb a "--delay").
    + destruct (parseTimeString x) as [d'|e]; [apply IHr|eauto].
    + destruct (String.eqb a "--count"); [|apply (IHxr d c)].
      destruct (Num.parseInt x) as [n|]; [|eauto].
      destruct (n <? 1); [eauto|apply IHr].
Qed.

Lemma parseArgsFrom_count_range (args : list string) :
  forall (d c : Z) (o : ScheduleOptions),
  parseArgsFrom args d c = Ok o -> tweetCount o = c \/ 1 <= tweetCount o.
Proof.
  induction args as [|a|a v r IHr IHvr] using args_ind; intros d c o.
  - intros [= <-]. now left.
  - intros [= <-]. now left.
  - cbn [parseArgsFrom].
    destruct (String.eqb a "--delay").
    + destruct (parseTimeString v) as [d'|e]; [apply IHr|discriminate].
    + destruct (String.eqb a "--count"); [|apply IHvr].
      destruct (Num.parseInt v) as [n|]; [|discriminate].
      destruct (Z.ltb_spec n 1); [discriminate|].
      intros Hr. destruct (IHr _ _ _ Hr) as [->|]; right; lia.
Qed.

(** ** Numerals *)

Lemma spanDigits_spec (s : string) :
  forall ds rest, Str.spanDigits s = (ds, rest) ->
                  s = ds ++ rest /\ allDigits ds = true.
Proof.
  induction s as [|c r IH]; simpl; intros ds rest.
  - intros [= <- <-]. auto.
  - destruct (Str.isDigit c) eqn:Hc.
    + destruct (Str.spanDigits r) as [ds' rest'].
      intros [= <- <-]. destruct (IH ds' rest' eq_refl) as [-> Hd].
      simpl. now rewrite Hc, Hd.
    + intros [= <- <-]. auto.
Qed.

Lemma digit_value (c : ascii) :
  Str.isDigit c = true ->
  exists d, Num.digitVal 10 c = Some d /\ 0 <= d <= 9 /\
            d = Z.of_nat (nat_of_ascii c) - 48.
Proof.
  destruct c as [[] [] [] [] [] [] [] []]; try discriminate; intros _;
    vm_compute; eexists; (split; [reflexivity|repeat split; discriminate]).
Qed.

Lemma digits_decimal (r : string) :
  allDigits r = true ->
  forall acc, 0 <= acc ->
    Num.digits 10 r true acc = Some (decimalFrom acc r) /\ acc <= decimalFrom acc r.
Proof.
  induction r as [|c r IH]; simpl; intros Hd acc Hacc.
  - split; [reflexivity|lia].
  - apply andb_true_iff in Hd as [Hc Hr].
    destruct (digit_value c Hc) as (d & -> & Hd & <-).
    destruct (IH Hr (acc * 10 + d)) as [-> Hn]; [lia|].
    split; [reflexivity|lia].
Qed.

(** ** Rounding to a double *)

Lemma roundNat_small v : v < 2 ^ 53 -> Num.roundNat v = v.
Proof. intros H. unfold Num.roundNat. destruct (Z.ltb_spec v (2 ^ 53)); [reflexivity|lia]. Qed.

Lemma pow53_le_infinity : 2 ^ 53 <= Num.infinity.
Proof. unfold Num.infinity. apply Z.pow_le_mono_r; lia. Qed.

Lemma roundNat_big v : 2 ^ 53 <= v -> 2 ^ 53 <= Num.roundNat v.
Proof.
  intros H. unfold Num.roundNat. destruct (Z.ltb_spec v (2 ^ 53)); [lia|].
  cbv zeta.
  assert (Hv : 0 < v) by (assert (0 < 2 ^ 53) by (apply Z.pow_pos_nonneg; lia); lia).
  assert (HL : 53 <= Z.log2 v).
  { rewrite <- (Z.log2_pow2 53) by lia. apply Z.log2_le_mono. lia. }
  destruct (Z.log2_spec v Hv) as [Hlo _].
  set (e := Z.log2 v - 52) in *.
  assert (He : 0 <= e) by (unfold e; lia).
  assert (Hpe : 0 < 2 ^ e) by (apply Z.pow_pos_nonneg; lia).
  assert (Hsplit : 2 ^ Z.log2 v = 2 ^ 52 * 2 ^ e).
  { unfold e. rewrite <- Z.pow_add_r by lia. f_equal. lia. }
  assert (Hq : 2 ^ 52 <= Z.shiftr v e).
  { rewrite Z.shiftr_div_pow2 by lia. apply Z.div_le_lower_bound; lia. }
  set (q := Z.shiftr v e) in *.
  match goal with
  | |- context [if ?b then q + 1 else q] => set (q' := if b then q + 1 else q)
  end.
  assert (Hq' : q <= q').
  { unfold q'. match goal with |- context [if ?b then _ else _] => destruct b end; lia. }
  assert (Hx : 2 ^ 53 <= Z.shiftl q' e).
  { rewrite Z.shiftl_mul_pow2 by lia.
    assert (2 ^ 53 <= 2 ^ Z.log2 v) by (apply Z.pow_le_mono_r; lia).
    nia. }
  destruct (Num.infinity <=? Z.shiftl q' e); [apply pow53_le_infinity|exact Hx].
Qed.

Lemma toDouble_small v : - 2 ^ 53 < v < 2 ^ 53 -> Num.toDouble v = v.
Proof.
  intros H. unfold Num.toDouble. destruct (Z.ltb_spec v 0).
  - rewrite roundNat_small; lia.
  - apply roundNat_small; lia.
Qed.

Lemma roundNat_nonneg v : 0 <= v -> 0 <= Num.roundNat v.
Proof.
  intros H. destruct (Z.lt_ge_cases v (2 ^ 53)).
  - now rewrite roundNat_small.
  - pose proof (roundNat_big v). assert (0 < 2 ^ 53) by (apply Z.pow_pos_nonneg; lia). lia.
Qed.

Lemma roundNat_pos v : 1 <= v -> 1 <= Num.roundNat v.
Proof.
  intros H. destruct (Z.lt_ge_cases v (2 ^ 53)).
  - now rewrite roundNat_small.
  - pose proof (roundNat_big v). assert (1 < 2 ^ 53) by (apply Z.pow_gt_1; lia). lia.
Qed.

Lemma toDouble_nonneg v : 0 <= v -> 0 <= Num.toDouble v.
Proof.
  intros H. unfold Num.toDouble. destruct (Z.ltb_spec v 0); [lia|now apply roundNat_nonneg].
Qed.

Lemma toDouble_ge_1 v : 1 <= v <-> 1 <= Num.toDouble v.
Proof.
  unfold Num.toDouble. destruct (Z.ltb_spec v 0).
  - pose proof (roundNat_nonneg (- v)). lia.
  - split; [apply roundNat_pos|].
    intros H1. destruct (Z.eq_dec v 0) as [->|]; [|lia].
    rewrite roundNat_small in H1; [lia|]. apply Z.pow_pos_nonneg; lia.
Qed.

Lemma toDouble_big v : 2 ^ 53 <= v -> 2 ^ 53 <= Num.toDouble v.
Proof.
  intros H. unfold Num.toDouble.
  assert (0 < 2 ^ 53) by (apply Z.pow_pos_nonneg; lia).
  destruct (Z.ltb_spec v 0); [lia|now apply roundNat_big].
Qed.

Lemma digit_prefix (c : ascii) (r : string) :
  Str.isDigit c = true ->
  Num.skipWhite (String c r) = String c r /\
  Num.signOf (String c r) = (false, String c r).
Proof.
  destruct c as [[] [] [] [] [] [] [] []]; try discriminate; intros _;
    split; reflexivity.
Qed.

Lemma digit_radix (s : string) :
  allDigits s = true -> Num.radixOf s = (10, s).
Proof.
  destruct s as [|c r]; [reflexivity|]. simpl. intros H.
  apply andb_true_iff in H as [Hc Hr].
  destruct c as [[] [] [] [] [] [] [] []]; try discriminate Hc; try reflexivity.
  destruct r as [|c2 r2]; [reflexivity|]. simpl in Hr.
  apply andb_true_iff in Hr as [Hc2 _].
  destruct c2 as [[] [] [] [] [] [] [] []]; try discriminate Hc2; reflexivity.
Qed.

(** [parseInt] reads a non-empty string of decimal digits in base 10 and
    returns the double of its value. *)
Lemma parseInt_digits (ds : string) :
  allDigits ds = true -> ds <> "" ->
  Num.parseInt ds = Some (Num.toDouble (decimalValue ds)) /\
  0 <= decimalValue ds.
Proof.
  intros Hd Hne. unfold Num.parseInt.
  destruct ds as [|c r]; [easy|].
  pose proof Hd as Hd'. simpl in Hd'. apply andb_true_iff in Hd' as [Hc Hr].
  destruct (digit_prefix c r Hc) as [-> ->].
  rewrite (digit_radix _ Hd). cbn [Num.digits].
  destruct (digit_value c Hc) as (d & -> & Hdv & Hcode).
  destruct (digits_decimal r Hr (0 * 10 + d)) as [-> Hn]; [lia|].
  unfold decimalValue. cbn [decimalFrom]. rewrite <- Hcode.
  split; [reflexivity|lia].
Qed.

Lemma matchTime_digits (v ds : string) :
  matchTime v = Some ds -> allDigits ds = true /\ ds <> "".
Proof.
  unfold matchTime. destruct (Str.spanDigits v) as [d suffix] eqn:Hs.
  destruct (String.eqb_spec d ""); simpl; [discriminate|].
  destruct (timeSuffixOk suffix); [|discriminate].
  intros [= <-]. split; [|assumption].
  now destruct (spanDigits_spec v d suffix Hs).
Qed.

(** The fallback branch of [parseTimeString] is never taken: a matching
    string yields the double of the value of its digits. *)
Lemma parseTimeString_match (v ds : string) :
  matchTime v = Some ds ->
  parseTimeString v = Ok (Num.toDouble (decimalValue ds)) /\
  0 <= Num.toDouble (decimalValue ds).
Proof.
  intros Hm. destruct (matchTime_digits v ds Hm) as [Hd Hne].
  destruct (parseInt_digits ds Hd Hne) as [Hn Hpos].
  unfold parseTimeString. rewrite Hm, Hn.
  split; [reflexivity|now apply toDouble_nonneg].
Qed.

Lemma append_empty (s : string) : s ++ "" = s.
Proof. induction s as [|c r IH]; simpl; congruence. Qed.

Lemma isPositiveInteger_value (v : string) :
  isPositiveInteger v = true ->
  Num.parseInt v = Some (Num.toDouble (decimalValue v)) /\ 1 <= decimalValue v.
Proof.
  unfold isPositiveInteger. destruct (Str.spanDigits v) as [ds rest] eqn:Hs.
  intros H. apply andb_true_iff in H as [H Hn]. apply andb_true_iff in H as [Hne Hr].
  apply String.eqb_eq in Hr. subst rest.
  destruct (spanDigits_spec v ds "" Hs) as [-> Hd].
  rewrite append_empty in *.
  assert (Hds : ds <> "").
  { intros ->. discriminate Hne. }
  destruct (parseInt_digits ds Hd Hds) as [Hp _].
  rewrite Hp in Hn |- *. split; [reflexivity|].
  apply toDouble_ge_1. now apply Z.leb_le.
Qed.

Example parseInt_samples :
  Num.parseInt "2.5" = Some 2 /\ Num.parseInt "  42" = Some 42 /\
  Num.parseInt "-7" = Some (-7) /\ Num.parseInt "0x1F" = Some 31 /\
  Num.parseInt "abc" = None /\ Num.parseInt "" = None /\
  Num.parseInt "0x" = None /\ Num.parseInt "3abc" = Some 3 /\
  Num.parseInt "0.5" = Some 0 /\
  Num.parseInt "9007199254740993" = Some 9007199254740992 /\
  Num.parseInt (String (ascii_of_nat 194) (String (ascii_of_nat 160) "2")) = Some 2 /\
  Num.parseInt (String (ascii_of_nat 239) (String (ascii_of_nat 187)
                  (String (ascii_of_nat 191) " 7"))) = Some 7.
Proof. repeat split. Qed.

Example parseTimeString_samples :
  parseTimeString "5min" = Ok 5 /\ parseTimeString "4" = Ok 4 /\
  parseTimeString "10MINUTES" = Ok 10 /\ parseTimeString "3m" = Ok 3 /\
  parseTimeString "2.5" = Err InvalidTimeFormat /\
  parseTimeString "-5" = Err InvalidTimeFormat /\
  parseTimeString "min" = Err InvalidTimeFormat /\
  parseTimeString "5 min" = Err InvalidTimeFormat.
Proof. repeat split. Qed.

(** C7, as stated, fails: a count argument that does not denote a positive
    integer is accepted -- [--count 2.5] parses to the count 2. *)
Lemma fractional_count_accepted :
  ~ (forall (v : string) (options : ScheduleOptions),
        parseArgs ["--count"; v] = Ok options -> isPositiveInteger v = true).
Proof.
  intros H. specialize (H "2.5" (mkOptions 2 2) eq_refl). discriminate H.
Qed.

(** C7, amended: a count argument is accepted only when [parseInt] reads
    from it an integer of at least 1 (so never a negative or zero value),
    and the count of the parsed options is 0 (not supplied) or at least 1.
    A positive-integer numeral is always accepted, with the double of its
    value, which is the value itself below 2^53.  An option [--delay] whose
    value does not match the time format, or [--count] whose value reads as
    no integer or as one below 1, makes parsing fail with an argument error
    wherever it stands, and [main] then exits with code 1 before any
    operation of authentication or dispatch. *)
Theorem argument_validation :
  (forall (pre post : list string) (v : string) (options : ScheduleOptions),
      parseArgs (pre ++ "--count" :: v :: post) = Ok options ->
      exists n, Num.parseInt v = Some n /\ 1 <= n) /\
  (forall v, isPositiveInteger v = true ->
             1 <= decimalValue v /\
             parseArgs ["--count"; v]
             = Ok (mkOptions 2 (Num.toDouble (decimalValue v))) /\
             (decimalValue v < 2 ^ 53 ->
              parseArgs ["--count"; v] = Ok (mkOptions 2 (decimalValue v)))) /\
  (forall (argv : list string) (options : ScheduleOptions),
      parseArgs argv = Ok options ->
      tweetCount options = 0 \/ 1 <= tweetCount options) /\
  (forall (pre post : list string) (v : string),
      matchTime v = None ->
      exists e, parseArgs (pre ++ "--delay" :: v :: post) = Err e /\
                isArgError e = true) /\
  (forall (pre post : list string) (v : string),
      match Num.parseInt v with Some n => n < 1 | None => True end ->
      exists e, parseArgs (pre ++ "--count" :: v :: post) = Err e /\
                isArgError e = true) /\
  (forall (env : Env) (argv : list string) (w : World) (e : Error),
      parseArgs argv = Err e -> main env argv w = (1, w)).
Proof.
  assert (Hrej : forall name v pre post, rejected name v ->
            exists e, parseArgs (pre ++ name :: v :: post) = Err e /\
                      isArgError e = true).
  { intros name v pre post H.
    destruct (parseArgsFrom_rejected name v post pre H 2 0) as [e He].
    exists e. split; [exact He|]. exact (parseArgsFrom_error _ _ _ _ He). }
  split.
  { intros pre post v options Hok.
    destruct (Num.parseInt v) as [n|] eqn:Hv.
    - destruct (Z.lt_ge_cases n 1) as [Hlt|Hge]; [|eauto].
      destruct (Hrej "--count" v pre post) as (e & He & _); [|congruence].
      right. rewrite Hv. auto.
    - destruct (Hrej "--count" v pre post) as (e & He & _); [|congruence].
      right. rewrite Hv. auto. }
  split.
  { intros v Hv. destruct (isPositiveInteger_value v Hv) as (Hn & Hpos).
    assert (Hacc : parseArgs ["--count"; v]
                   = Ok (mkOptions 2 (Num.toDouble (decimalValue v)))).
    { unfold parseArgs. cbn [parseArgsFrom].
      change (String.eqb "--count" "--delay") with false. cbv iota.
      rewrite String.eqb_refl, Hn.
      apply toDouble_ge_1 in Hpos.
      destruct (Z.ltb_spec (Num.toDouble (decimalValue v)) 1); [lia|reflexivity]. }
    split; [exact Hpos|]. split; [exact Hacc|].
    intros Hsafe. rewrite Hacc, toDouble_small; [reflexivity|lia]. }
  split.
  { intros argv options H. exact (parseArgsFrom_count_range argv 2 0 options H). }
  split; [intros pre post v Hv; apply Hrej; now left|].
  split; [intros pre post v Hv; apply Hrej; now right|].
  intros env argv w e He. unfold main. now rewrite He.
Qed.

Lemma argument_validation_witness :
  (exists n, Num.parseInt "5" = Some n /\ 1 <= n) /\
  parseArgs ["--count"; "12"] = Ok (mkOptions 2 (decimalValue "12")) /\
  (exists e, parseArgs ["--delay"; "4min"; "--delay"; "soon"] = Err e /\
             isArgError e = true) /\
  (exists e, parseArgs ["--count"; "0"] = Err e /\ isArgError e = true) /\
  main (happyEnv [] 0 ParseThrows) ["--count"; "-3"] emptyWorld = (1, emptyWorld).
Proof.
  destruct argument_validation as (Hacc & Hnum & _ & Hdelay & Hcount & Hmain).
  split; [exact (Hacc ["--delay"; "4min"] [] "5" (mkOptions 4 5) eq_refl)|].
  split; [apply (proj2 (proj2 (Hnum "12" eq_refl))); reflexivity|].
  split; [exact (Hdelay ["--delay"; "4min"] [] "soon" eq_refl)|].
  split; [apply (Hcount [] [] "0"); vm_compute; reflexivity|].
  exact (Hmain (happyEnv [] 0 ParseThrows) ["--count"; "-3"] emptyWorld
               CountNotPositive eq_refl).
Defined.

(** ** Unsupported media *)

(** The loop over [l1 ++ l2] is the loop over [l1] followed, if it
    completes, by the loop over [l2]. *)
Lemma sendLoop_app (env : Env) (ms : Z) (l1 l2 : list TweetConfig) :
  forall (i : nat) (w : World),
  sendLoop env ms i (l1 ++ l2) w =
  match sendLoop env ms i l1 w with
  | (Ok _, w1) => sendLoop env ms (i + List.length l1) l2 w1
  | (Err e, w1) => (Err e, w1)
  end.
Proof.
  induction l1 as [|t r IH]; intros i w.
  - cbn [app sendLoop List.length]. unfold ret. now rewrite Nat.add_0_r.
  - change ((t :: r) ++ l2)%list with (t :: (r ++ l2))%list.
    rewrite !sendLoop_cons. cbv zeta.
    destruct (sendTweet env (content t) (pathsOf t) _) as [[u|e] w2]; [|reflexivity].
    rewrite IH. cbn [List.length]. now rewrite Nat.add_succ_r.
Qed.

(** The lookup yields a non-empty string, an inherited member, or
    [undefined]: it is falsy only when undefined. *)
Lemma getMimeType_falsy (x : option string) :
  truthy (getMimeType x) = false <-> getMimeType x = Undefined.
Proof.
  split; [|now intros ->].
  destruct x as [e|]; [|reflexivity]. unfold getMimeType.
  destruct (String.eqb e ""); [reflexivity|].
  unfold getProperty, mimeTypes. cbn [ownProperty].
  repeat match goal with
         | |- context [String.eqb ?a e] => destruct (String.eqb a e)
         end; try discriminate.
  now destruct (existsb (String.eqb e) objectPrototype).
Qed.

(** A post with an unresolved media path stops the loop where it stands:
    after the wait that precedes it, without a publish call. *)
Lemma sendLoop_unsupported (env : Env) (ms : Z) (i : nat) (post : TweetConfig)
      (after : list TweetConfig) (p : string) (w : World) :
  In p (pathsOf post) -> getMimeType (extensionOf p) = Undefined ->
  exists q,
    In q (pathsOf post) /\ getMimeType (extensionOf q) = Undefined /\
    sendLoop env ms i (post :: after) w =
    (Err (UnsupportedMedia q), mkWorld (trace w ++ waitBefore ms i) (cookieFile w)).
Proof.
  intros Hin Hp.
  assert (Hf : truthy (getMimeType (extensionOf p)) = false) by now rewrite Hp.
  destruct (mediaFor_unsupported env (trace w ++ waitBefore ms i) _ p Hin Hf)
    as (q & Hq & Hqin & Hqf).
  exists q. split; [exact Hqin|]. split.
  - now apply getMimeType_falsy.
  - rewrite sendLoop_cons. cbv zeta. rewrite sendTweet_eq. cbn [trace]. now rewrite Hq.
Qed.

Lemma published_waitBefore (ms : Z) (i : nat) : published (waitBefore ms i) = [].
Proof. unfold waitBefore. now destruct (0 <? i)%nat. Qed.

(** C4, as stated, fails: a post with an unsupported media path in the
    working set does not make the run fail with a media error when an
    earlier post already failed -- here the publish of the first post is
    rejected, and the run ends on that error after one publish call. *)
Lemma earlier_failure_preempts_media_error :
  ~ (forall (env : Env) (options : ScheduleOptions) (tweets : list TweetConfig)
            (post : TweetConfig) (p : string) (w : World),
        loadTweetsConfig env "./tweets.json" w = (Ok tweets, w) ->
        In post (tweetsToSend options tweets) ->
        In p (pathsOf post) -> getMimeType (extensionOf p) = Undefined ->
        exists e, fst (sendConfiguredTweets env "./tweets.json" options w) = Err e /\
                  isMediaError e = true).
Proof.
  intros H.
  specialize (H (rejectingEnv [mkRaw (Some "A") None; mkRaw (Some "B") (Some ["pic.bmp"])])
                (mkOptions 2 0)
                [mkTweet "A" None; mkTweet "B" (Some ["pic.bmp"])]
                (mkTweet "B" (Some ["pic.bmp"])) "pic.bmp" emptyWorld eq_refl).
  destruct H as (e & He & Hm).
  - simpl. auto.
  - simpl. auto.
  - reflexivity.
  - vm_compute in He. injection He as <-. discriminate Hm.
Qed.

(** C4, amended: when a post of the working set has a media path whose
    extension the lookup leaves undefined, the run fails, and neither that
    post nor any later one is passed to the publish operation: the publish
    calls are those of an initial part of the earlier posts.  If an earlier
    post fails, the run ends there with that error.  If the earlier posts
    are all dispatched, the run fails with the media error of an unresolved
    path of that post, after publishing exactly the earlier posts. *)
Theorem unsupported_media_aborts (env : Env) (configPath : string)
        (options : ScheduleOptions) (tweets before after : list TweetConfig)
        (post : TweetConfig) (p : string) (w w0 : World) :
  loadTweetsConfig env configPath w = (Ok tweets, w0) ->
  tweetsToSend options tweets = (before ++ post :: after)%list ->
  In p (pathsOf post) -> getMimeType (extensionOf p) = Undefined ->
  let run := sendConfiguredTweets env configPath options w in
  let evs := since w (snd run) in
  let earlier := sendLoop env (delayMs options) 0 before w in
  (exists e, fst run = Err e) /\
  prefix (published evs) (map content before) /\
  (forall e, fst earlier = Err e -> run = earlier) /\
  (fst earlier = Ok tt ->
   exists q, In q (pathsOf post) /\ getMimeType (extensionOf q) = Undefined /\
             fst run = Err (UnsupportedMedia q) /\
             isMediaError (UnsupportedMedia q) = true /\
             published evs = map content before).
Proof.
  intros Hload Hws Hin Hp run evs earlier.
  assert (Hrun : run = match earlier with
                       | (Ok _, w1) =>
                           sendLoop env (delayMs options) (0 + List.length before)
                                    (post :: after) w1
                       | (Err e, w1) => (Err e, w1)
                       end).
  { unfold run. rewrite (sendConfiguredTweets_loaded _ _ options _ _ _ Hload), Hws.
    apply sendLoop_app. }
  destruct (sendLoop_trace env (delayMs options) before 0 w)
    as (evs1 & Hext & _ & Hpre & Hok).
  fold earlier in Hext, Hok.
  apply publishedSteps_prefix in Hpre.
  rewrite <- published_steps, publishedSteps_plan in Hpre.
  destruct earlier as [[[]|e] w1] eqn:He; cbn [fst snd] in *.
  - destruct (sendLoop_unsupported env (delayMs options) (0 + List.length before)
                post after p w1 Hin Hp) as (q & Hq & Hqu & Hloop).
    rewrite Hloop in Hrun.
    assert (Hevs : published evs = map content before).
    { unfold evs. rewrite Hrun. cbn [snd]. unfold extends in Hext.
      rewrite Hext. cbn [trace cookieFile].
      erewrite (since_app w _ (evs1 ++ waitBefore _ _));
        [|cbn [trace]; now rewrite <- app_assoc].
      rewrite published_app, published_waitBefore, app_nil_r.
      rewrite published_steps, (Hok eq_refl). apply publishedSteps_plan. }
    split; [exists (UnsupportedMedia q); now rewrite Hrun|].
    split; [rewrite Hevs; apply prefix_refl|].
    split; [discriminate|].
    intros _. exists q. repeat split; auto. now rewrite Hrun.
  - assert (Hevs : evs = evs1).
    { unfold evs. rewrite Hrun. cbn [snd]. now apply since_extends. }
    split; [exists e; now rewrite Hrun|].
    split; [now rewrite Hevs|].
    split; [intros e' _; exact Hrun|discriminate].
Qed.

Lemma unsupported_media_aborts_witness :
  let env := happyEnv [mkRaw (Some "A") None; mkRaw (Some "B") (Some ["pic.bmp"]);
                       mkRaw (Some "C") None] 0 ParseThrows in
  let run := sendConfiguredTweets env "./tweets.json" (mkOptions 2 0) emptyWorld in
  (exists e, fst run = Err e) /\
  prefix (published (since emptyWorld (snd run))) ["A"] /\
  exists q, fst run = Err (UnsupportedMedia q) /\
            published (since emptyWorld (snd run)) = ["A"].
Proof.
  pose (raw := [mkRaw (Some "A") None; mkRaw (Some "B") (Some ["pic.bmp"]);
                mkRaw (Some "C") None]).
  pose proof (unsupported_media_aborts (happyEnv raw 0 ParseThrows) "./tweets.json"
                (mkOptions 2 0)
                [mkTweet "A" None; mkTweet "B" (Some ["pic.bmp"]); mkTweet "C" None]
                [mkTweet "A" None] [mkTweet "C" None]
                (mkTweet "B" (Some ["pic.bmp"])) "pic.bmp" emptyWorld emptyWorld
                eq_refl eq_refl (or_introl eq_refl) eq_refl) as H.
  cbv zeta in H. destruct H as (Hfail & Hpre & _ & Hreached).
  cbv zeta. split; [exact Hfail|]. split; [exact Hpre|].
  destruct (Hreached eq_refl) as (q & _ & _ & Hq & _ & Hpub).
  exists q. split; [exact Hq|exact Hpub].
Defined.

(** ** Extensions and media types *)

Lemma split_nonempty (sep : ascii) (s : string) : Str.split sep s <> [].
Proof.
  destruct s as [|c r]; simpl; [discriminate|].
  destruct (Ascii.eqb c sep); [discriminate|].
  destruct (Str.split sep r); discriminate.
Qed.

Lemma split_app_sep (sep : ascii) (a e : string) :
  Str.split sep (a ++ String sep e) = (Str.split sep a ++ Str.split sep e)%list.
Proof.
  induction a as [|c a IH]; simpl.
  - now rewrite Ascii.eqb_refl.
  - rewrite IH. destruct (Ascii.eqb c sep); [reflexivity|].
    pose proof (split_nonempty sep a) as Hne.
    destruct (Str.split sep a) as [|h t]; [easy|reflexivity].
Qed.

Lemma split_no_sep (sep : ascii) (e : string) :
  Str.contains sep e = false -> Str.split sep e = [e].
Proof.
  unfold Str.contains. induction e as [|c r IH]; simpl; [reflexivity|].
  intros H. apply orb_false_iff in H as [Hc Hr].
  rewrite Ascii.eqb_sym, Hc, (IH Hr). reflexivity.
Qed.

Lemma last_cons {A} (y d : A) (r : list A) : last (y :: r) d = last r y.
Proof.
  revert y d. induction r as [|z r IH]; intros y d; [reflexivity|].
  change (last (y :: z :: r) d) with (last (z :: r) d).
  rewrite IH. symmetry. apply IH.
Qed.

Lemma pop_app (l1 l2 : list string) : l2 <> [] -> Str.pop (l1 ++ l2) = Str.pop l2.
Proof.
  intros Hne. destruct l2 as [|y r2]; [easy|].
  induction l1 as [|x r1 IH]; [reflexivity|].
  cbn [app]. rewrite <- IH. unfold Str.pop.
  destruct (r1 ++ y :: r2)%list as [|z r] eqn:Hz.
  - now destruct r1.
  - f_equal. apply last_cons.
Qed.

(** The extension is what follows the last ['.'], in lower case; a path
    without ['.'] is its own extension. *)
Lemma extension_after_last_dot (a e : string) :
  Str.contains "." e = false ->
  extensionOf (a ++ String "." e) = Some (Str.toLowerCase e) /\
  extensionOf e = Some (Str.toLowerCase e).
Proof.
  intros He. unfold extensionOf.
  rewrite split_app_sep, pop_app by apply split_nonempty.
  rewrite (split_no_sep _ _ He). auto.
Qed.

(** The five own entries of the table. *)
Lemma mime_table :
  getMimeType (Some "jpg") = Str "image/jpeg" /\
  getMimeType (Some "jpeg") = Str "image/jpeg" /\
  getMimeType (Some "png") = Str "image/png" /\
  getMimeType (Some "gif") = Str "image/gif" /\
  getMimeType (Some "mp4") = Str "video/mp4".
Proof. repeat split. Qed.

(** The lookup yields a string exactly for the five entries. *)
Lemma mime_string_iff (x : option string) (m : string) :
  getMimeType x = Str m <-> exists e, x = Some e /\ In (e, m) mimeTypes.
Proof.
  split.
  - destruct x as [e|]; [|discriminate]. unfold getMimeType.
    destruct (String.eqb e ""); [discriminate|].
    unfold getProperty, mimeTypes. cbn [ownProperty].
    repeat match goal with
           | |- context [String.eqb ?a e] => destruct (String.eqb_spec a e)
           end;
      try (intros [= <-]; exists e; subst e; simpl; split; [reflexivity|tauto]).
    now destruct (existsb (String.eqb e) objectPrototype).
  - intros (e & -> & Hin). simpl in Hin.
    repeat destruct Hin as [[= <- <-]|Hin]; try reflexivity. destruct Hin.
Qed.

(** It is undefined exactly for the empty extension and for the names that
    are neither entries of the table nor members of [Object.prototype]. *)
Lemma mime_undefined_iff (e : string) :
  getMimeType (Some e) = Undefined <->
  e = "" \/ (~ In e (map fst mimeTypes) /\ ~ In e objectPrototype).
Proof.
  unfold getMimeType. destruct (String.eqb_spec e "") as [->|Hne].
  - split; auto.
  - unfold getProperty, mimeTypes. cbn [ownProperty map fst In].
    repeat match goal with
           | |- context [String.eqb ?a e] => destruct (String.eqb_spec a e)
           end; try (split; [discriminate|intros [H|[H _]]; [easy|exfalso; apply H; tauto]]).
    destruct (existsb (String.eqb e) objectPrototype) eqn:Hp.
    + split; [discriminate|]. intros [H|[_ H]]; [easy|]. exfalso. apply H.
      apply existsb_exists in Hp as (x & Hx & Heq).
      apply String.eqb_eq in Heq. now subst x.
    + split; [|reflexivity]. intros _. right. split; [tauto|].
      intros Hin. assert (existsb (String.eqb e) objectPrototype = true); [|congruence].
      apply existsb_exists. exists e. split; [exact Hin|apply String.eqb_refl].
Qed.

(** Extensions are matched without regard to case. *)
Lemma extension_case_insensitive (a e : string) :
  Str.contains "." e = false ->
  getMimeType (extensionOf (a ++ String "." e)) = getMimeType (Some (Str.toLowerCase e)).
Proof. intros He. now destruct (extension_after_last_dot a e He) as [-> _]. Qed.

Example upper_case_png :
  getMimeType (extensionOf "Holiday.PNG") = Str "image/png" /\
  getMimeType (extensionOf "clip.Mp4") = Str "video/mp4" /\
  getMimeType (extensionOf "scan.bmp") = Undefined /\
  getMimeType (extensionOf "archive.tar.gz") = Undefined.
Proof. repeat split. Qed.

(** C9: the table's five entries resolve as claimed, but the mapping is not
    undefined for every other extension: looked up on an object literal,
    the names [constructor] and [__proto__] yield inherited members of
    [Object.prototype].  A media path [photo.constructor] passes the check
    of [sendTweet] and is handed to the publish operation with a media type
    that is no string. *)
Theorem inherited_extension_resolves :
  extensionOf "photo.constructor" = Some "constructor" /\
  getMimeType (extensionOf "photo.constructor") = Inherited "constructor" /\
  truthy (getMimeType (extensionOf "photo.constructor")) = true /\
  getMimeType (extensionOf "x.__proto__") = Inherited "__proto__" /\
  sendTweet (happyEnv [] 0 ParseThrows) "hello" ["photo.constructor"] emptyWorld
  = (Ok tt,
     mkWorld [Publish "hello" (Some [mkMedia "bytes" (Inherited "constructor")])]
             Missing).
Proof. repeat split. Qed.

(** * Further properties of the code *)

(** ** Time strings *)

Lemma timeSuffix_not_digit (c : ascii) (r : string) :
  timeSuffixOk (String c r) = true -> Str.isDigit c = false.
Proof.
  intros H. destruct (Str.isDigit c) eqn:Hd; [|reflexivity].
  destruct c as [[] [] [] [] [] [] [] []]; try discriminate Hd;
    cbn in H; discriminate H.
Qed.

Lemma spanDigits_app (ds suffix : string) :
  allDigits ds = true -> timeSuffixOk suffix = true ->
  Str.spanDigits (ds ++ suffix) = (ds, suffix).
Proof.
  intros Hd Hs. induction ds as [|c r IH]; simpl.
  - destruct suffix as [|c r]; [reflexivity|].
    cbn [Str.spanDigits]. now rewrite (timeSuffix_not_digit c r Hs).
  - simpl in Hd. apply andb_true_iff in Hd as [Hc Hr].
    now rewrite Hc, (IH Hr).
Qed.

Lemma timeSuffixOk_iff (suffix : string) :
  timeSuffixOk suffix = true <->
  In (Str.toLowerCase suffix) [""; "m"; "min"; "minutes"].
Proof.
  unfold timeSuffixOk. cbv zeta. rewrite !orb_true_iff, !String.eqb_eq.
  cbn [In]. intuition congruence.
Qed.

(** X1: [parseTimeString] accepts exactly the strings made of one or more
    decimal digits followed by nothing or by [m], [min] or [minutes] in any
    letter case; signs, fractions, spaces and other units are rejected.  It
    returns the double nearest to the decimal value of the digits, whatever
    the unit: the value itself when it is below 2^53. *)
Theorem parseTimeString_accepts_exactly (v : string) (n : Z) :
  (parseTimeString v = Ok n <->
   exists ds suffix,
     v = ds ++ suffix /\ ds <> "" /\ allDigits ds = true /\
     In (Str.toLowerCase suffix) [""; "m"; "min"; "minutes"] /\
     n = Num.toDouble (decimalValue ds)) /\
  (forall ds suffix,
     ds <> "" -> allDigits ds = true ->
     In (Str.toLowerCase suffix) [""; "m"; "min"; "minutes"] ->
     decimalValue ds < 2 ^ 53 ->
     parseTimeString (ds ++ suffix) = Ok (decimalValue ds)).
Proof.
  assert (Hback : forall ds suffix,
            ds <> "" -> allDigits ds = true ->
            In (Str.toLowerCase suffix) [""; "m"; "min"; "minutes"] ->
            parseTimeString (ds ++ suffix) = Ok (Num.toDouble (decimalValue ds))).
  { intros ds suffix Hne Hd Hsuf. apply timeSuffixOk_iff in Hsuf.
    apply parseTimeString_match. unfold matchTime.
    rewrite (spanDigits_app ds suffix Hd Hsuf), Hsuf.
    now destruct (String.eqb_spec ds ""). }
  split.
  - split.
    + intros H. unfold parseTimeString in H.
      destruct (matchTime v) as [ds|] eqn:Hm; [|discriminate].
      destruct (matchTime_digits v ds Hm) as [Hd Hne].
      destruct (parseInt_digits ds Hd Hne) as [Hk _].
      rewrite Hk in H. injection H as <-.
      unfold matchTime in Hm. destruct (Str.spanDigits v) as [d suffix] eqn:Hs.
      destruct (negb (String.eqb d "")); [|discriminate].
      destruct (timeSuffixOk suffix) eqn:Hsuf; [|discriminate].
      injection Hm as ->. exists ds, suffix.
      destruct (spanDigits_spec v ds suffix Hs) as [-> _].
      apply timeSuffixOk_iff in Hsuf. auto.
    + intros (ds & suffix & -> & Hne & Hd & Hsuf & ->). now apply Hback.
  - intros ds suffix Hne Hd Hsuf Hsafe.
    rewrite (Hback ds suffix Hne Hd Hsuf). f_equal.
    destruct (parseInt_digits ds Hd Hne) as [_ Hpos].
    apply toDouble_small. lia.
Qed.

Lemma parseTimeString_accepts_exactly_witness :
  parseTimeString ("015" ++ "MiN") = Ok (decimalValue "015").
Proof.
  apply (proj2 (parseTimeString_accepts_exactly "" 0) "015" "MiN").
  - discriminate.
  - reflexivity.
  - cbn. auto.
  - reflexivity.
Defined.

Lemma parseTimeString_nonneg (v : string) (n : Z) :
  parseTimeString v = Ok n -> 0 <= n.
Proof.
  intros H. pose proof H as H'. unfold parseTimeString in H'.
  destruct (matchTime v) as [ds|] eqn:Hm; [|discriminate].
  destruct (parseTimeString_match v ds Hm) as [Hk Hpos].
  rewrite Hk in H. now injection H as <-.
Qed.

Lemma parseArgsFrom_delay_nonneg (args : list string) :
  forall (d c : Z) (o : ScheduleOptions),
  0 <= d -> parseArgsFrom args d c = Ok o -> 0 <= delayMinutes o.
Proof.
  induction args as [|a|a v r IHr IHvr] using args_ind; intros d c o Hd.
  - now intros [= <-].
  - now intros [= <-].
  - cbn [parseArgsFrom].
    destruct (String.eqb a "--delay").
    + destruct (parseTimeString v) as [d'|e] eqn:Hv; [|discriminate].
      apply IHr. exact (parseTimeString_nonneg v d' Hv).
    + destruct (String.eqb a "--count"); [|now apply IHvr].
      destruct (Num.parseInt v) as [n|]; [|discriminate].
      destruct (n <? 1); [discriminate|now apply IHr].
Qed.

(** X2: whatever the command line, an accepted one never yields a negative
    [delayMinutes]: the delay is the default 2 or the value of a time
    string, and no time string has a sign. *)
Theorem parsed_delay_nonnegative (argv : list string) (options : ScheduleOptions) :
  parseArgs argv = Ok options -> 0 <= delayMinutes options.
Proof.
  intros H. apply (parseArgsFrom_delay_nonneg argv 2 0 options); [lia|exact H].
Qed.

Lemma parsed_delay_nonnegative_witness :
  0 <= delayMinutes (mkOptions 0 3).
Proof.
  exact (parsed_delay_nonnegative ["--count"; "3"; "--delay"; "0m"]
           (mkOptions 0 3) eq_refl).
Defined.

Lemma parseArgsFrom_plain (args : list string) :
  forall (d c : Z),
  forallb (fun a => negb (isOptionName a)) args = true ->
  parseArgsFrom args d c = Ok (mkOptions d c).
Proof.
  induction args as [|a|a v r IHr IHvr] using args_ind; intros d c H;
    try reflexivity.
  cbn [forallb] in H. apply andb_true_iff in H as [Ha Hr].
  unfold isOptionName in Ha. apply negb_true_iff, orb_false_iff in Ha as [Hd Hc].
  cbn [parseArgsFrom]. rewrite Hd, Hc. now apply IHvr.
Qed.

Lemma parseArgsFrom_no_delay (args : list string) :
  forall (d c : Z) (o : ScheduleOptions),
  ~ In "--delay" args -> parseArgsFrom args d c = Ok o -> delayMinutes o = d.
Proof.
  induction args as [|a|a v r IHr IHvr] using args_ind; intros d c o Hno.
  - now intros [= <-].
  - now intros [= <-].
  - cbn [parseArgsFrom].
    destruct (String.eqb_spec a "--delay") as [->|_].
    + exfalso. apply Hno. simpl. auto.
    + destruct (String.eqb a "--count").
      * destruct (Num.parseInt v) as [n|]; [|discriminate].
        destruct (n <? 1); [discriminate|].
        apply IHr. intros Hin. apply Hno. simpl. auto.
      * apply IHvr. intros Hin. apply Hno. simpl. auto.
Qed.

(** X3: arguments that are not option names are ignored: a command line
    without [--delay] and [--count] always parses, to the defaults of a
    2-minute delay and all tweets; and without [--delay] alone an accepted
    command line keeps the 2-minute default. *)
Theorem parseArgs_defaults (argv : list string) :
  (forallb (fun a => negb (isOptionName a)) argv = true ->
   parseArgs argv = Ok (mkOptions 2 0)) /\
  (forall options, ~ In "--delay" argv -> parseArgs argv = Ok options ->
                   delayMinutes options = 2).
Proof.
  split.
  - intros H. now apply parseArgsFrom_plain.
  - intros options Hno H. exact (parseArgsFrom_no_delay argv 2 0 options Hno H).
Qed.

Lemma parseArgs_defaults_witness :
  parseArgs ["now"; "-v"; "5min"] = Ok (mkOptions 2 0) /\
  delayMinutes (mkOptions 2 7) = 2.
Proof.
  split.
  - apply (proj1 (parseArgs_defaults ["now"; "-v"; "5min"])). reflexivity.
  - apply (proj2 (parseArgs_defaults ["x"; "--count"; "7"]) (mkOptions 2 7)).
    + simpl. intros [H|[H|[H|[]]]]; discriminate H.
    + reflexivity.
Defined.

(** ** The tweets file *)

Lemma validateTweets_ok (items : list JsonEntry) :
  forall (k : nat) (tweets : list TweetConfig),
  validateTweets k items = Ok tweets ->
  List.length tweets = List.length items /\
  forall (i : nat) (t : TweetConfig),
    nth_error tweets i = Some t ->
    content t <> "" /\
    exists r, nth_error items i = Some (EntryObject r) /\
              rawContent r = Some (content t) /\
              rawMediaPaths r = mediaPaths t.
Proof.
  induction items as [|[|r] items IH]; intros k tweets; cbn [validateTweets].
  - intros [= <-]. split; [reflexivity|]. intros [|i] t H; discriminate H.
  - discriminate.
  - destruct (rawContent r) as [c|] eqn:Hc; [|discriminate].
    destruct (String.eqb_spec c "") as [|Hne]; [discriminate|].
    destruct (validateTweets (S k) items) as [l|e] eqn:Hv; [|discriminate].
    intros [= <-]. destruct (IH (S k) l Hv) as [Hlen Hnth].
    split; [cbn [List.length]; now rewrite Hlen|].
    intros [|i] t H; cbn [nth_error] in *.
    + injection H as <-. cbn. split; [exact Hne|]. exists r. auto.
    + now apply Hnth.
Qed.

Lemma validateTweets_err (items : list JsonEntry) :
  forall (k : nat) (e : Error),
  validateTweets k items = Err e ->
  exists i entry,
    nth_error items i = Some entry /\
    (forall j x, (j < i)%nat -> nth_error items j = Some x -> hasContent x) /\
    ((entry = EntryNull /\ e = EntryIsNull) \/
     (exists r, entry = EntryObject r /\ e = MissingContent (k + i) /\
                (rawContent r = None \/ rawContent r = Some ""))).
Proof.
  induction items as [|[|r] items IH]; intros k e; cbn [validateTweets];
    [discriminate| |].
  - intros [= <-]. exists 0%nat, EntryNull.
    split; [reflexivity|]. split; [intros j x Hj; lia|]. now left.
  - destruct (rawContent r) as [c|] eqn:Hc.
    + destruct (String.eqb_spec c "") as [->|Hne].
      * intros [= <-]. exists 0%nat, (EntryObject r). rewrite Nat.add_0_r.
        split; [reflexivity|]. split; [intros j x Hj; lia|]. right. eauto.
      * destruct (validateTweets (S k) items) as [l|e'] eqn:Hv; [discriminate|].
        intros [= <-].
        destruct (IH (S k) e' Hv) as (i & entry & Hn & Hbefore & Hcase).
        exists (S i), entry. rewrite Nat.add_succ_r.
        split; [exact Hn|]. split; [|exact Hcase].
        intros [|j] x Hj; cbn [nth_error].
        -- intros [= <-]. exists r, c. auto.
        -- apply Hbefore. lia.
    + intros [= <-]. exists 0%nat, (EntryObject r). rewrite Nat.add_0_r.
      split; [reflexivity|]. split; [intros j x Hj; lia|]. right. eauto.
Qed.

(** X4: a tweets file that loads is returned entry by entry: the loaded
    list has the length of the array, in its order, every tweet has a
    non-empty [content], and text and media paths are those of the file. *)
Theorem loaded_tweets_are_the_file (env : Env) (configPath : string)
        (tweets : list TweetConfig) (w w' : World) :
  loadTweetsConfig env configPath w = (Ok tweets, w') ->
  w' = w /\
  exists items,
    tweetsFile env configPath = TweetsArray items /\
    List.length tweets = List.length items /\
    forall (i : nat) (t : TweetConfig),
      nth_error tweets i = Some t ->
      content t <> "" /\
      exists r, nth_error items i = Some (EntryObject r) /\
                rawContent r = Some (content t) /\
                rawMediaPaths r = mediaPaths t.
Proof.
  intros H. split; [exact (proj1 (loadTweetsConfig_pure _ _ _ _ _ H))|].
  unfold loadTweetsConfig, throw, ret in H.
  destruct (tweetsFile env configPath) as [| |items]; try discriminate H.
  exists items. split; [reflexivity|].
  destruct (validateTweets 0 items) as [l|e] eqn:Hv; [|discriminate H].
  injection H as <- _. exact (validateTweets_ok items 0 l Hv).
Qed.

Lemma loaded_tweets_are_the_file_witness :
  exists items,
    tweetsFile (happyEnv [mkRaw (Some "A") (Some ["a.png"]); mkRaw (Some "B") None]
                         0 ParseThrows) "./tweets.json" = TweetsArray items /\
    List.length [mkTweet "A" (Some ["a.png"]); mkTweet "B" None] = List.length items.
Proof.
  destruct (loaded_tweets_are_the_file
              (happyEnv [mkRaw (Some "A") (Some ["a.png"]); mkRaw (Some "B") None]
                        0 ParseThrows) "./tweets.json"
              [mkTweet "A" (Some ["a.png"]); mkTweet "B" None]
              emptyWorld emptyWorld eq_refl) as (_ & items & Hf & Hlen & _).
  exists items. split; assumption.
Defined.

(** X5: loading the tweets file fails in four ways only: the file cannot
    be read or parsed, it is not an array, an entry is [null] (the read of
    its [content] throws), or an entry has a missing or empty [content],
    reported with its index.  The entry that fails is the first that is
    null or without content: every entry before it has a non-empty
    content.  No failure changes the world. *)
Theorem tweets_file_rejected (env : Env) (configPath : string)
        (e : Error) (w w' : World) :
  loadTweetsConfig env configPath w = (Err e, w') ->
  w' = w /\
  ((e = ConfigUnreadable /\ tweetsFile env configPath = TweetsThrows) \/
   (e = ConfigNotArray /\ tweetsFile env configPath = TweetsNotArray) \/
   exists items i entry,
     tweetsFile env configPath = TweetsArray items /\
     nth_error items i = Some entry /\
     (forall j x, (j < i)%nat -> nth_error items j = Some x -> hasContent x) /\
     ((entry = EntryNull /\ e = EntryIsNull) \/
      (exists r, entry = EntryObject r /\ e = MissingContent i /\
                 (rawContent r = None \/ rawContent r = Some "")))).
Proof.
  intros H. split; [exact (proj1 (loadTweetsConfig_pure _ _ _ _ _ H))|].
  unfold loadTweetsConfig, throw, ret in H.
  destruct (tweetsFile env configPath) as [| |items].
  - left. injection H as <- _. auto.
  - right. left. injection H as <- _. auto.
  - right. right.
    destruct (validateTweets 0 items) as [l|e'] eqn:Hv; [discriminate H|].
    injection H as <- _.
    destruct (validateTweets_err items 0 e' Hv) as (i & entry & Hn & Hbefore & Hcase).
    exists items, i, entry. auto.
Qed.

Lemma tweets_file_rejected_witness :
  exists items i entry,
    tweetsFile nullEntryEnv "./tweets.json" = TweetsArray items /\
    nth_error items i = Some entry /\
    (forall j x, (j < i)%nat -> nth_error items j = Some x -> hasContent x) /\
    ((entry = EntryNull /\ EntryIsNull = EntryIsNull) \/
     (exists r, entry = EntryObject r /\ EntryIsNull = MissingContent i /\
                (rawContent r = None \/ rawContent r = Some ""))).
Proof.
  destruct (tweets_file_rejected nullEntryEnv "./tweets.json" EntryIsNull
              emptyWorld emptyWorld eq_refl)
    as [_ [[H _]|[[H _]|H]]]; try discriminate H.
  exact H.
Defined.

(** ** One tweet: media and publish *)

Lemma checkExtensions_ok (paths : list string) (checked : list (string * JsProp)) :
  checkExtensions paths = Ok checked ->
  checked = map (fun p => (p, getMimeType (extensionOf p))) paths /\
  forallb (fun p => truthy (getMimeType (extensionOf p))) paths = true.
Proof.
  revert checked. induction paths as [|p r IH]; intros checked; cbn [checkExtensions].
  - intros [= <-]. auto.
  - unfold checkExtension.
    destruct (truthy (getMimeType (extensionOf p))) eqn:Hp; [|discriminate].
    destruct (checkExtensions r) as [l|e]; [|discriminate].
    intros [= <-]. destruct (IH l eq_refl) as [-> Hall].
    cbn [map forallb]. now rewrite Hp, Hall.
Qed.

Lemma checkExtensions_all (paths : list string) :
  forallb (fun p => truthy (getMimeType (extensionOf p))) paths = true ->
  checkExtensions paths = Ok (map (fun p => (p, getMimeType (extensionOf p))) paths).
Proof.
  induction paths as [|p r IH]; cbn [checkExtensions forallb map]; [reflexivity|].
  intros H. apply andb_true_iff in H as [Hp Hr].
  unfold checkExtension. now rewrite Hp, (IH Hr).
Qed.

Lemma readInOrder_ok (env : Env) (h : list Event) (paths : list string)
      (l : list MediaData) :
  readInOrder env h (map (fun p => (p, getMimeType (extensionOf p))) paths) = Some l ->
  map mediaType l = map (fun p => getMimeType (extensionOf p)) paths /\
  map (fun m => Some (data m)) l = map (readMedia env h) paths.
Proof.
  revert l. induction paths as [|p r IH]; intros l; cbn [map readInOrder].
  - intros [= <-]. auto.
  - destruct (readMedia env h p) as [bytes|] eqn:Hr; [|discriminate].
    destruct (readInOrder env h _) as [l'|]; [|discriminate].
    intros [= <-]. destruct (IH l' eq_refl) as [Ht Hd].
    cbn [map mediaType data]. now rewrite Ht, Hd.
Qed.

Lemma readAll_ok (env : Env) (h : list Event) (paths : list string)
      (l : list MediaData) :
  readAll env h (map (fun p => (p, getMimeType (extensionOf p))) paths) = Ok l ->
  map mediaType l = map (fun p => getMimeType (extensionOf p)) paths /\
  map (fun m => Some (data m)) l = map (readMedia env h) paths.
Proof.
  unfold readAll. destruct (readInOrder env h _) as [l'|] eqn:Hr; [|discriminate].
  intros [= <-]. exact (readInOrder_ok env h paths l' Hr).
Qed.

Lemma failedReads_spec (env : Env) (h : list Event) (checked : list (string * JsProp))
      (q : string) :
  In q (failedReads env h checked) <->
  In q (map fst checked) /\ readMedia env h q = None.
Proof.
  induction checked as [|[p m] r IH]; cbn [failedReads map fst In]; [tauto|].
  destruct (readMedia env h p) as [b|] eqn:Hp.
  - rewrite IH. split; [tauto|]. intros [[->|H] Hq]; [congruence|tauto].
  - cbn [In]. rewrite IH. split; [|tauto].
    intros [->|H]; tauto.
Qed.

Lemma readInOrder_none (env : Env) (h : list Event) (checked : list (string * JsProp)) :
  readInOrder env h checked = None <-> failedReads env h checked <> [].
Proof.
  induction checked as [|[p m] r IH]; cbn [readInOrder failedReads]; [easy|].
  destruct (readMedia env h p) as [b|]; [|easy].
  destruct (readInOrder env h r) as [l|]; rewrite <- IH; easy.
Qed.

(** A failure of [readAll] is the read error of one of the paths whose
    read fails. *)
Lemma readAll_err (env : Env) (h : list Event) (checked : list (string * JsProp))
      (e : Error) :
  readAll env h checked = Err e ->
  exists q, e = MediaUnreadable q /\ In q (map fst checked) /\
            readMedia env h q = None.
Proof.
  unfold readAll. destruct (readInOrder env h checked) as [l|] eqn:Hr; [discriminate|].
  apply readInOrder_none in Hr. cbv zeta.
  set (failed := failedReads env h checked) in *.
  set (q := firstToReject env h failed).
  intros [= <-].
  assert (Hin : In (if existsb (String.eqb q) failed then q else hd q failed) failed).
  { destruct (existsb (String.eqb q) failed) eqn:Hq.
    - apply existsb_exists in Hq as (x & Hx & Heq).
      apply String.eqb_eq in Heq. now subst x.
    - destruct failed as [|q0 rest]; [easy|]. now left. }
  eexists. split; [reflexivity|]. now apply failedReads_spec.
Qed.

Lemma readAll_unreadable (env : Env) (h : list Event) (paths : list string)
      (q : string) :
  In q paths -> readMedia env h q = None ->
  exists q', readAll env h (map (fun p => (p, getMimeType (extensionOf p))) paths)
             = Err (MediaUnreadable q') /\
             In q' paths /\ readMedia env h q' = None.
Proof.
  intros Hin Hq.
  set (checked := map (fun p => (p, getMimeType (extensionOf p))) paths).
  assert (Hfst : map fst checked = paths).
  { unfold checked. rewrite map_map. cbn [fst]. apply map_id. }
  destruct (readAll env h checked) as [l|e] eqn:Hr.
  - exfalso. unfold readAll in Hr.
    destruct (readInOrder env h checked) as [l'|] eqn:Ho; [|discriminate].
    assert (Hne : failedReads env h checked <> []).
    { intros Hnil. assert (Hq' : In q (failedReads env h checked)).
      { apply failedReads_spec. now rewrite Hfst. }
      now rewrite Hnil in Hq'. }
    apply readInOrder_none in Hne. congruence.
  - destruct (readAll_err env h checked e Hr) as (q' & -> & Hq'in & Hq').
    exists q'. rewrite Hfst in Hq'in. auto.
Qed.

Lemma mediaFor_error (env : Env) (h : list Event) (paths : list string) (e : Error) :
  mediaFor env h paths = Err e -> isMediaError e = true.
Proof.
  unfold mediaFor, resolveMedia. destruct paths as [|p r]; [discriminate|].
  destruct (checkExtensions (p :: r)) as [checked|e'] eqn:Hc.
  - destruct (readAll env h checked) as [l|e'] eqn:Hr; [discriminate|].
    intros [= <-]. now destruct (readAll_err env h checked e' Hr) as (q & -> & _).
  - intros [= <-]. revert e' Hc. generalize (p :: r) as paths.
    induction paths as [|a paths IH]; intros e'; cbn [checkExtensions]; [discriminate|].
    unfold checkExtension. destruct (truthy _); [|now intros [= <-]].
    destruct (checkExtensions paths) as [l|e2]; [discriminate|].
    intros [= <-]. now apply IH.
Qed.

(** X6: [sendTweet] calls the publish operation at most once and touches
    nothing but the trace.  Either it fails with a media error and has done
    nothing at all, or it made exactly one publish call, with the tweet's
    text, and its result is that of this call. *)
Theorem sendTweet_publishes_at_most_once (env : Env) (text : string)
        (paths : list string) (w : World) :
  cookieFile (snd (sendTweet env text paths w)) = cookieFile w /\
  ((exists e, sendTweet env text paths w = (Err e, w) /\ isMediaError e = true) \/
   (exists m, since w (snd (sendTweet env text paths w)) = [Publish text m] /\
              fst (sendTweet env text paths w)
              = if sendTweetOk env (trace w) text m then Ok tt else Err PublishFailed)).
Proof.
  rewrite sendTweet_eq.
  destruct (mediaFor env (trace w) paths) as [m|e] eqn:Hm.
  - split; [reflexivity|]. right. exists m. cbn [fst snd].
    split; [now apply since_app|reflexivity].
  - split; [reflexivity|]. left. exists e. split; [reflexivity|].
    exact (mediaFor_error _ _ _ _ Hm).
Qed.

(** X7: what is passed to the publish operation.  Without media paths the
    media argument is undefined; otherwise it has one attachment per path,
    in the order of the paths, each with the bytes read from its path and
    the type looked up from the path's extension. *)
Theorem published_media_follow_paths (env : Env) (text text' : string)
        (paths : list string) (m : option (list MediaData)) (w : World) :
  In (Publish text' m) (since w (snd (sendTweet env text paths w))) ->
  text' = text /\
  match m with
  | None => paths = []
  | Some l =>
      paths <> [] /\
      map mediaType l = map (fun p => getMimeType (extensionOf p)) paths /\
      map (fun x => Some (data x)) l = map (readMedia env (trace w)) paths
  end.
Proof.
  rewrite sendTweet_eq.
  destruct (mediaFor env (trace w) paths) as [m0|e] eqn:Hm; cbn [snd].
  - erewrite since_app by reflexivity.
    intros [[= <- <-]|[]]. split; [reflexivity|].
    unfold mediaFor, resolveMedia in Hm. destruct paths as [|p r].
    + now injection Hm as <-.
    + destruct (checkExtensions (p :: r)) as [checked|e] eqn:Hc; [|discriminate].
      destruct (checkExtensions_ok _ _ Hc) as [-> _].
      destruct (readAll env (trace w) _) as [l|e] eqn:Hr; [|discriminate].
      injection Hm as <-. split; [discriminate|]. exact (readAll_ok _ _ _ _ Hr).
  - unfold since. rewrite skipn_all. intros [].
Qed.

Lemma published_media_follow_paths_witness :
  "hi" = "hi" /\
  ["a.PNG"; "b.mp4"] <> [] /\
  map mediaType [mkMedia "bytes" (Str "image/png"); mkMedia "bytes" (Str "video/mp4")]
  = map (fun p => getMimeType (extensionOf p)) ["a.PNG"; "b.mp4"] /\
  map (fun x => Some (data x))
      [mkMedia "bytes" (Str "image/png"); mkMedia "bytes" (Str "video/mp4")]
  = map (readMedia (happyEnv [] 0 ParseThrows) (trace emptyWorld)) ["a.PNG"; "b.mp4"].
Proof.
  apply (published_media_follow_paths (happyEnv [] 0 ParseThrows) "hi" "hi"
           ["a.PNG"; "b.mp4"]
           (Some [mkMedia "bytes" (Str "image/png"); mkMedia "bytes" (Str "video/mp4")])
           emptyWorld).
  left. reflexivity.
Defined.

(** X8: when every extension resolves but some file cannot be read,
    [sendTweet] fails with the read error of a path whose read fails and
    makes no publish call; when only one path is unreadable the error is
    that path's. *)
Theorem unreadable_media_aborts (env : Env) (text : string)
        (paths : list string) (q : string) (w : World) :
  forallb (fun p => truthy (getMimeType (extensionOf p))) paths = true ->
  In q paths -> readMedia env (trace w) q = None ->
  exists q',
    In q' paths /\ readMedia env (trace w) q' = None /\
    sendTweet env text paths w = (Err (MediaUnreadable q'), w) /\
    ((forall p, In p paths -> readMedia env (trace w) p = None -> p = q) -> q' = q).
Proof.
  intros Hext Hin Hq. rewrite sendTweet_eq.
  destruct (readAll_unreadable env (trace w) paths q Hin Hq) as (q' & Hr & Hq'in & Hq').
  exists q'. split; [exact Hq'in|]. split; [exact Hq'|]. split; [|auto].
  unfold mediaFor, resolveMedia. rewrite (checkExtensions_all _ Hext), Hr.
  destruct paths; [destruct Hin|reflexivity].
Qed.

Lemma unreadable_media_aborts_witness :
  exists q',
    sendTweet missingFileEnv "hi" ["a.jpg"; "gone.png"; "b.gif"] emptyWorld
    = (Err (MediaUnreadable q'), emptyWorld) /\ q' = "gone.png".
Proof.
  destruct (unreadable_media_aborts missingFileEnv "hi" ["a.jpg"; "gone.png"; "b.gif"]
              "gone.png" emptyWorld eq_refl (or_intror (or_introl eq_refl)) eq_refl)
    as (q' & _ & _ & Hs & Huniq).
  exists q'. split; [exact Hs|]. apply Huniq.
  intros p [<-|[<-|[<-|[]]]] H; try reflexivity; discriminate H.
Defined.

(** ** Runs: waits, empty lists, size of the working set *)

Lemma waits_steps (evs : list Event) : waits evs = waitSteps (stepsOf evs).
Proof.
  induction evs as [|e r IH]; [reflexivity|].
  unfold waits, waitSteps, stepsOf in *. cbn [flat_map].
  rewrite flat_map_app, <- IH. now destruct e.
Qed.

Lemma waitSteps_plan (ms : Z) (l : list TweetConfig) :
  forall i, waitSteps (plan ms i l)
            = repeat ms (if (0 <? i)%nat then List.length l else pred (List.length l)).
Proof.
  induction l as [|t r IH]; intros i; cbn [plan].
  - now destruct (0 <? i)%nat.
  - unfold waitSteps in *. rewrite flat_map_app. cbn [flat_map app].
    rewrite (IH (S i)). cbn [Nat.ltb Nat.leb List.length pred].
    now destruct i.
Qed.

Lemma sum_repeat (x : Z) (k : nat) :
  fold_right Z.add 0 (repeat x k) = Z.of_nat k * x.
Proof.
  induction k as [|k IH]; [reflexivity|].
  cbn [repeat fold_right]. rewrite IH. lia.
Qed.

Lemma delayMs_exact (options : ScheduleOptions) :
  Z.max (delayMinutes options) 2 * 60000 < 2 ^ 53 ->
  delayMs options = Z.max (delayMinutes options) 2 * 60000.
Proof.
  unfold delayMs, effectiveDelayMinutes, MIN_DELAY_MINUTES.
  change (2 ^ 53) with 9007199254740992. intros H.
  rewrite (toDouble_small (Z.max (delayMinutes options) 2 * 60));
    [|change (2 ^ 53) with 9007199254740992; lia].
  rewrite toDouble_small; [lia|change (2 ^ 53) with 9007199254740992; lia].
Qed.

Lemma delayMs_overflow (options : ScheduleOptions) :
  35792 <= Z.max (delayMinutes options) 2 -> 2147483647 < delayMs options.
Proof.
  intros H.
  destruct (Z.lt_ge_cases (Z.max (delayMinutes options) 2 * 60000) (2 ^ 53)) as [Hs|Hb].
  - rewrite (delayMs_exact options Hs). lia.
  - unfold delayMs, effectiveDelayMinutes, MIN_DELAY_MINUTES.
    set (m := Z.max (delayMinutes options) 2) in *.
    assert (Hbig : 2 ^ 53 <= Num.toDouble (m * 60) * 1000).
    { destruct (Z.lt_ge_cases (m * 60) (2 ^ 53)) as [Hs|Hb'].
      - rewrite toDouble_small; change (2 ^ 53) with 9007199254740992 in *; lia.
      - pose proof (toDouble_big (m * 60) Hb').
        change (2 ^ 53) with 9007199254740992 in *. lia. }
    pose proof (toDouble_big _ Hbig). change (2 ^ 53) with 9007199254740992 in *. lia.
Qed.

(** X9: a run that completes over [n] posts has armed exactly [n - 1]
    timers, each with [delayMs]; no run arms more.  Up to a requested
    delay of 35791 minutes each timer runs [max(delayMinutes, 2) * 60000]
    ms, a total of [(n - 1)] times that for a completed run; from 35792
    minutes on the delay leaves the 32-bit range and each timer runs
    1 ms. *)
Theorem completed_run_waits (env : Env) (configPath : string)
        (options : ScheduleOptions) (tweets : list TweetConfig) (w w0 : World) :
  loadTweetsConfig env configPath w = (Ok tweets, w0) ->
  let run := sendConfiguredTweets env configPath options w in
  let evs := since w (snd run) in
  let n := List.length (tweetsToSend options tweets) in
  let m := Z.max (delayMinutes options) 2 in
  (List.length (waits evs) <= pred n)%nat /\
  (fst run = Ok tt ->
   waits evs = repeat (delayMs options) (pred n) /\
   pauses evs = repeat (Num.timerDelay (delayMs options)) (pred n)) /\
  (m <= 35791 ->
   delayMs options = m * 60000 /\
   Num.timerDelay (delayMs options) = m * 60000 /\
   (fst run = Ok tt -> totalPause evs = Z.of_nat (pred n) * (m * 60000))) /\
  (35792 <= m -> Num.timerDelay (delayMs options) = 1).
Proof.
  intros Hload run evs n m.
  destruct (run_trace env configPath options tweets w w0 Hload)
    as (_ & _ & Hpre & Hok).
  fold run in Hpre, Hok. fold evs in Hpre, Hok.
  pose proof (waitSteps_plan (delayMs options) (tweetsToSend options tweets) 0) as Hw.
  cbn [Nat.ltb Nat.leb] in Hw. fold n in Hw.
  assert (Hwaits : fst run = Ok tt -> waits evs = repeat (delayMs options) (pred n)).
  { intros H. now rewrite waits_steps, (Hok H). }
  assert (Hpauses : fst run = Ok tt ->
                    pauses evs = repeat (Num.timerDelay (delayMs options)) (pred n)).
  { intros H. unfold pauses. rewrite (Hwaits H). apply map_repeat. }
  split.
  { rewrite waits_steps. destruct Hpre as [r Hr].
    assert (Hlen : List.length (waitSteps (stepsOf evs ++ r)) = pred n).
    { rewrite <- Hr, Hw. apply repeat_length. }
    unfold waitSteps in *. rewrite flat_map_app, length_app in Hlen. lia. }
  split; [intros H; split; auto|].
  split.
  - intros Hm.
    assert (Hms : delayMs options = m * 60000).
    { apply delayMs_exact. fold m. change (2 ^ 53) with 9007199254740992. lia. }
    assert (Ht : Num.timerDelay (delayMs options) = m * 60000).
    { rewrite Hms. unfold Num.timerDelay.
      destruct (Z.ltb_spec (m * 60000) 1); [unfold m in *; lia|].
      destruct (Z.ltb_spec 2147483647 (m * 60000)); [lia|reflexivity]. }
    split; [exact Hms|]. split; [exact Ht|].
    intros H. unfold totalPause. now rewrite (Hpauses H), sum_repeat, Ht.
  - intros Hm. pose proof (delayMs_overflow options Hm) as Hbig.
    unfold Num.timerDelay.
    destruct (Z.ltb_spec 2147483647 (delayMs options)); [|lia].
    now rewrite orb_true_r.
Qed.

Lemma completed_run_waits_witness :
  totalPause (since emptyWorld (snd (sendConfiguredTweets
     (happyEnv [mkRaw (Some "A") None; mkRaw (Some "B") None; mkRaw (Some "C") None]
               0 ParseThrows) "./tweets.json" (mkOptions 5 0) emptyWorld)))
  = Z.of_nat (pred 3) * (Z.max 5 2 * 60000) /\
  Num.timerDelay (delayMs (mkOptions 40000 0)) = 1.
Proof.
  pose (raw := [mkRaw (Some "A") None; mkRaw (Some "B") None; mkRaw (Some "C") None]).
  pose proof (completed_run_waits (happyEnv raw 0 ParseThrows) "./tweets.json"
                (mkOptions 5 0)
                [mkTweet "A" None; mkTweet "B" None; mkTweet "C" None]
                emptyWorld emptyWorld eq_refl) as H.
  cbv zeta in H. destruct H as (_ & _ & H & _).
  pose proof (completed_run_waits (happyEnv raw 0 ParseThrows) "./tweets.json"
                (mkOptions 40000 0)
                [mkTweet "A" None; mkTweet "B" None; mkTweet "C" None]
                emptyWorld emptyWorld eq_refl) as H'.
  cbv zeta in H'. destruct H' as (_ & _ & _ & H').
  split.
  - refine (proj2 (proj2 (H _)) eq_refl). vm_compute. discriminate.
  - apply H'. vm_compute. discriminate.
Defined.

(** X10: a run over an empty working set completes at once, with no
    operation at all; and only such a run completes without changing the
    world. *)
Theorem empty_working_set (env : Env) (configPath : string)
        (options : ScheduleOptions) (tweets : list TweetConfig) (w w0 : World) :
  loadTweetsConfig env configPath w = (Ok tweets, w0) ->
  (tweetsToSend options tweets = [] <->
   sendConfiguredTweets env configPath options w = (Ok tt, w)).
Proof.
  intros Hload. split.
  - intros Hws. rewrite (sendConfiguredTweets_loaded _ _ options _ _ _ Hload), Hws.
    reflexivity.
  - intros Hrun.
    destruct (run_trace env configPath options tweets w w0 Hload)
      as (_ & _ & _ & Hok).
    rewrite Hrun in Hok. cbn [fst snd] in Hok. specialize (Hok eq_refl).
    unfold since in Hok. rewrite skipn_all in Hok.
    destruct (tweetsToSend options tweets) as [|t r]; [reflexivity|].
    cbn [plan Nat.ltb Nat.leb app] in Hok. discriminate Hok.
Qed.

Lemma empty_working_set_witness :
  sendConfiguredTweets (happyEnv [] 0 ParseThrows) "./tweets.json"
                       (mkOptions 2 4) emptyWorld = (Ok tt, emptyWorld).
Proof.
  apply (proj1 (empty_working_set (happyEnv [] 0 ParseThrows) "./tweets.json"
                  (mkOptions 2 4) [] emptyWorld emptyWorld eq_refl)).
  reflexivity.
Defined.

(** X11: the working set has [min(count, n)] posts for a positive count
    and all [n] posts for a count of zero or below; no run makes more
    publish calls than that. *)
Theorem working_set_size (env : Env) (configPath : string)
        (options : ScheduleOptions) (tweets : list TweetConfig) (w w0 : World) :
  loadTweetsConfig env configPath w = (Ok tweets, w0) ->
  let n := Z.of_nat (List.length tweets) in
  let size := if 0 <? tweetCount options then Z.min (tweetCount options) n else n in
  Z.of_nat (List.length (tweetsToSend options tweets)) = size /\
  Z.of_nat (List.length (published
     (since w (snd (sendConfiguredTweets env configPath options w))))) <= size.
Proof.
  intros Hload n size.
  assert (Hsize : Z.of_nat (List.length (tweetsToSend options tweets)) = size).
  { unfold size, tweetsToSend, slice0.
    destruct (Z.ltb_spec 0 (tweetCount options));
      destruct (Z.gtb_spec (tweetCount options) 0); try lia.
    rewrite length_firstn. unfold n. lia. }
  split; [exact Hsize|]. rewrite <- Hsize.
  destruct (run_trace env configPath options tweets w w0 Hload)
    as (_ & _ & Hpre & _).
  apply publishedSteps_prefix in Hpre.
  rewrite <- published_steps, publishedSteps_plan in Hpre.
  apply prefix_length in Hpre. rewrite length_map in Hpre. lia.
Qed.

Lemma working_set_size_witness :
  Z.of_nat (List.length (tweetsToSend (mkOptions 2 (-3))
                           [mkTweet "A" None; mkTweet "B" None])) = 2.
Proof.
  exact (proj1 (working_set_size
                  (happyEnv [mkRaw (Some "A") None; mkRaw (Some "B") None] 0 ParseThrows)
                  "./tweets.json" (mkOptions 2 (-3))
                  [mkTweet "A" None; mkTweet "B" None]
                  emptyWorld emptyWorld eq_refl)).
Defined.

(** ** Authentication: fallback, outcomes, reuse *)

Lemma credentialLogin_cases (env : Env) (w : World) :
  credentialLogin env w = (Err LoginFailed, addEvent w Login) \/
  credentialLogin env w
  = (Err GetCookiesFailed, mkWorld (trace w ++ [Login; GetCookies]) (cookieFile w)) \/
  exists text,
    (credentialLogin env w
     = (Ok tt, mkWorld (trace w ++ [Login; GetCookies; WriteCookies text]) (Content text))
     \/
     credentialLogin env w
     = (Err WriteFailed,
        mkWorld (trace w ++ [Login; GetCookies; WriteCookies text]) (cookieFile w))).
Proof.
  rewrite credentialLogin_eq. cbv zeta.
  destruct (loginOk env (trace w)); [|now left].
  right. unfold addEvent. cbn [trace cookieFile].
  destruct (getCookies env (trace w ++ [Login])) as [cs|].
  - right. rewrite saveCookies_eq. cbv zeta. unfold addEvent. cbn [trace cookieFile].
    rewrite <- !app_assoc. cbn [app].
    eexists. destruct (writeOk env _ _); [left|right]; reflexivity.
  - left. rewrite <- app_assoc. reflexivity.
Qed.

(** X12: cached cookies that are fresh but that the remote rejects do not
    fail the login: after the [setCookies] call the client falls back to the
    credential login, and applies no cookies again. *)
Theorem rejected_cookies_fall_back (env : Env) (client : TwitterClient)
        (w : World) (stored : StoredCookies) :
  fst (loadCookies env w) = Ok (Some stored) ->
  now env (trace w) - timestamp stored < cookieExpirationMs client ->
  setCookiesOk env (trace w) (cookies stored) = false ->
  login env client w = credentialLogin env (addEvent w (SetCookies (cookies stored))) /\
  exists rest,
    since w (snd (login env client w)) = SetCookies (cookies stored) :: Login :: rest /\
    existsb isSetCookies rest = false.
Proof.
  intros Hload Hfresh Hrej. rewrite loadCookies_eq in Hload. injection Hload as Hc.
  assert (Hl : login env client w
               = credentialLogin env (addEvent w (SetCookies (cookies stored)))).
  { rewrite login_eq, Hc. unfold areCookiesValid.
    apply Z.ltb_lt in Hfresh. now rewrite Hfresh, Hrej. }
  split; [exact Hl|]. rewrite Hl.
  destruct (credentialLogin_trace env (addEvent w (SetCookies (cookies stored))))
    as (rest & Htr & Hno).
  exists rest. split; [|exact Hno].
  apply since_app. rewrite Htr. unfold addEvent. cbn [trace].
  now rewrite <- app_assoc.
Qed.

Lemma rejected_cookies_fall_back_witness :
  let w := mkWorld [] (Content "{}") in
  exists rest,
    since w (snd (login pickyEnv defaultClient w))
    = SetCookies ["old"] :: Login :: rest /\
    existsb isSetCookies rest = false.
Proof.
  cbv zeta.
  refine (proj2 (rejected_cookies_fall_back pickyEnv defaultClient
                   (mkWorld [] (Content "{}")) (mkStored ["old"] 5)
                   eq_refl _ eq_refl)).
  vm_compute. reflexivity.
Defined.

(** X13: how [login] can end.  It succeeds either by applying the cached
    cookies, with that single operation and the cache file untouched, or by
    a credential login that ends with the write of the new cookies, the
    cache file then holding the written text.  It fails only with the error
    of [scraper.login], of [scraper.getCookies] or of the write; in the
    first two cases nothing was written.  No login writes the cache file
    more than once. *)
Theorem login_outcomes (env : Env) (client : TwitterClient) (w : World) :
  let r := login env client w in
  let evs := since w (snd r) in
  (fst r = Ok tt ->
   (exists c, cached env w = Some c /\ evs = [SetCookies (cookies c)] /\
              cookieFile (snd r) = cookieFile w) \/
   (exists text, cookieFile (snd r) = Content text /\
                 last evs Login = WriteCookies text)) /\
  (forall e, fst r = Err e ->
     (e = LoginFailed \/ e = GetCookiesFailed \/ e = WriteFailed) /\
     cookieFile (snd r) = cookieFile w /\
     (e = WriteFailed \/ existsb isWrite evs = false)) /\
  (List.length (filter isWrite evs) <= 1)%nat.
Proof.
  cbv zeta. rewrite login_eq.
  assert (Hcred : forall pre : list Event,
    existsb isWrite pre = false ->
    let w0 := mkWorld (trace w ++ pre) (cookieFile w) in
    let r := credentialLogin env w0 in
    let evs := since w (snd r) in
    (fst r = Ok tt ->
     exists text, cookieFile (snd r) = Content text /\
                  last evs Login = WriteCookies text) /\
    (forall e, fst r = Err e ->
       (e = LoginFailed \/ e = GetCookiesFailed \/ e = WriteFailed) /\
       cookieFile (snd r) = cookieFile w /\
       (e = WriteFailed \/ existsb isWrite evs = false)) /\
    (List.length (filter isWrite evs) <= 1)%nat).
  { intros pre Hpre w0. cbv zeta.
    assert (Hfilter : filter isWrite pre = []).
    { clear -Hpre. induction pre as [|x pre IH]; [reflexivity|].
      cbn in *. apply orb_false_iff in Hpre as [-> Hpre]. now apply IH. }
    destruct (credentialLogin_cases env w0) as [H|[H|(text & [H|H])]];
      rewrite H; cbn [fst snd]; unfold w0, addEvent; cbn [trace cookieFile];
      rewrite <- app_assoc;
      erewrite since_app by reflexivity;
      rewrite filter_app, Hfilter, existsb_app, Hpre; cbn [app filter isWrite List.length existsb orb].
    - split; [discriminate|]. split; [|lia]. intros e [= <-]. auto.
    - split; [discriminate|]. split; [|lia]. intros e [= <-]. auto.
    - split; [|split; [discriminate|lia]].
      intros _. exists text. split; [reflexivity|].
      change [Login; GetCookies; WriteCookies text]
        with ([Login; GetCookies] ++ [WriteCookies text])%list.
      rewrite app_assoc. apply last_last.
    - split; [discriminate|]. split; [|lia]. intros e [= <-]. auto. }
  assert (Hw : credentialLogin env w
               = credentialLogin env (mkWorld (trace w ++ []) (cookieFile w))).
  { rewrite app_nil_r. now destruct w. }
  destruct (cached env w) as [c|] eqn:Hc.
  - destruct (areCookiesValid _ _ c).
    + destruct (setCookiesOk env (trace w) (cookies c)).
      * cbn [fst snd]. unfold addEvent. erewrite since_app by reflexivity.
        split; [|split; [discriminate|cbn; lia]].
        intros _. left. exists c. auto.
      * destruct (Hcred [SetCookies (cookies c)] eq_refl) as (H1 & H2 & H3).
        unfold addEvent. split; [|split; assumption].
        intros H. right. now apply H1.
    + rewrite Hw. destruct (Hcred [] eq_refl) as (H1 & H2 & H3).
      split; [|split; assumption]. intros H. right. now apply H1.
  - rewrite Hw. destruct (Hcred [] eq_refl) as (H1 & H2 & H3).
    split; [|split; assumption]. intros H. right. now apply H1.
Qed.

Lemma login_outcomes_witness :
  ((exists c, cached (happyEnv [] 0 ParseThrows) emptyWorld = Some c /\
              since emptyWorld (snd (login (happyEnv [] 0 ParseThrows) defaultClient
                                            emptyWorld)) = [SetCookies (cookies c)] /\
              cookieFile (snd (login (happyEnv [] 0 ParseThrows) defaultClient emptyWorld))
              = cookieFile emptyWorld) \/
   (exists text,
       cookieFile (snd (login (happyEnv [] 0 ParseThrows) defaultClient emptyWorld))
       = Content text /\
       last (since emptyWorld (snd (login (happyEnv [] 0 ParseThrows) defaultClient
                                          emptyWorld))) Login = WriteCookies text)) /\
  cookieFile (snd (login (lockedOutEnv []) defaultClient emptyWorld))
  = cookieFile emptyWorld.
Proof.
  split.
  - exact (proj1 (login_outcomes (happyEnv [] 0 ParseThrows) defaultClient emptyWorld)
                 eq_refl).
  - exact (proj1 (proj2 (proj1 (proj2 (login_outcomes (lockedOutEnv []) defaultClient
                                                       emptyWorld))
                               LoginFailed eq_refl))).
Defined.

(** X14: the session persisted by a credential login is reused by the next
    login.  In any later world with the same cache file -- [JSON.parse]
    reading back what [JSON.stringify] wrote -- a login made before the
    record's age reaches the expiration applies exactly the cookies
    obtained then and, if the remote accepts them, makes no credential
    login. *)
Theorem persisted_session_is_reused (env : Env) (client : TwitterClient)
        (w w1 w2 : World) :
  credentialLogin env w = (Ok tt, w1) ->
  cookieFile w2 = cookieFile w1 ->
  exists record,
    getCookies env (trace w ++ [Login]) = Some (cookies record) /\
    timestamp record = now env (trace w ++ [Login; GetCookies]) /\
    cookieFile w1 = Content (stringify env record) /\
    (parseCookies env (stringify env record) = Parsed record ->
     now env (trace w2) - timestamp record < cookieExpirationMs client ->
     setCookiesOk env (trace w2) (cookies record) = true ->
     login env client w2 = (Ok tt, addEvent w2 (SetCookies (cookies record)))).
Proof.
  rewrite credentialLogin_eq. cbv zeta.
  destruct (loginOk env (trace w)); [|discriminate].
  unfold addEvent. cbn [trace cookieFile].
  destruct (getCookies env (trace w ++ [Login])) as [cs|]; [|discriminate].
  rewrite saveCookies_eq. cbv zeta. cbn [trace].
  rewrite <- !app_assoc. cbn [app].
  set (t := now env (trace w ++ [Login; GetCookies])).
  destruct (writeOk env _ _); [|discriminate].
  intros [= <-] Hfile. cbn [cookieFile] in Hfile.
  exists (mkStored cs t). cbn [cookies timestamp cookieFile].
  repeat split.
  intros Hround Hfresh Hok.
  rewrite login_eq. unfold cached. rewrite Hfile, Hround.
  unfold areCookiesValid. cbn [cookies timestamp].
  apply Z.ltb_lt in Hfresh. rewrite Hfresh, Hok.
  unfold addEvent. now rewrite Hfile.
Qed.

Lemma persisted_session_is_reused_witness :
  let record := mkStored ["auth_token=1"] 1000 in
  let env := happyEnv [] 1000 (Parsed record) in
  let w1 := snd (credentialLogin env emptyWorld) in
  login env defaultClient (mkWorld [] (cookieFile w1))
  = (Ok tt, addEvent (mkWorld [] (cookieFile w1)) (SetCookies ["auth_token=1"])).
Proof.
  cbv zeta.
  pose (record := mkStored ["auth_token=1"] 1000).
  pose (env := happyEnv [] 1000 (Parsed record)).
  destruct (persisted_session_is_reused env defaultClient emptyWorld
              (snd (credentialLogin env emptyWorld))
              (mkWorld [] (cookieFile (snd (credentialLogin env emptyWorld))))
              eq_refl eq_refl) as (r & Hc & Ht & Hfile & Hreuse).
  assert (Hr : r = record).
  { destruct r as [c t]. cbn in Hc, Ht. injection Hc as <-. now subst t. }
  subst r. apply Hreuse; reflexivity.
Defined.

(** ** The whole program *)

Lemma login_trace (env : Env) (client : TwitterClient) (w : World) :
  exists la,
    trace (snd (login env client w)) = (trace w ++ la)%list /\
    forallb (fun e => negb (isDispatch e)) la = true.
Proof.
  assert (Hcred : forall w0, exists la,
            trace (snd (credentialLogin env w0)) = (trace w0 ++ la)%list /\
            forallb (fun e => negb (isDispatch e)) la = true).
  { intros w0.
    destruct (credentialLogin_cases env w0) as [H|[H|(text & [H|H])]];
      rewrite H; cbn [snd trace addEvent]; eexists; split; reflexivity. }
  rewrite login_eq.
  destruct (cached env w) as [c|]; [|apply Hcred].
  destruct (areCookiesValid _ _ c); [|apply Hcred].
  destruct (setCookiesOk env (trace w) (cookies c)).
  - exists [SetCookies (cookies c)]. split; reflexivity.
  - destruct (Hcred (addEvent w (SetCookies (cookies c)))) as (la & Hla & Hnd).
    exists (SetCookies (cookies c) :: la). split; [|exact Hnd].
    rewrite Hla. cbn [addEvent trace]. now rewrite <- app_assoc.
Qed.

Lemma main_eq (env : Env) (argv : list string) (options : ScheduleOptions) (w : World) :
  parseArgs argv = Ok options ->
  main env argv w =
  match login env defaultClient w with
  | (Ok _, w1) =>
      match sendConfiguredTweets env "./tweets.json" options w1 with
      | (Ok _, w2) => (0, w2)
      | (Err _, w2) => (1, w2)
      end
  | (Err _, w1) => (1, w1)
  end.
Proof.
  intros H. unfold main, bind. rewrite H.
  now destruct (login env defaultClient w) as [[u|e] w1].
Qed.

Lemma sendConfiguredTweets_trace (env : Env) (configPath : string)
      (options : ScheduleOptions) (w : World) :
  exists da,
    trace (snd (sendConfiguredTweets env configPath options w)) = (trace w ++ da)%list /\
    forallb isDispatch da = true.
Proof.
  destruct (loadTweetsConfig env configPath w) as [[tweets|e] w0] eqn:Hload.
  - destruct (run_trace env configPath options tweets w w0 Hload)
      as (Hext & Hdis & _).
    eexists. split; [|exact Hdis]. rewrite Hext at 1. reflexivity.
  - destruct (loadTweetsConfig_pure _ _ _ _ _ Hload) as [-> _].
    exists []. unfold sendConfiguredTweets, bind. rewrite Hload.
    cbn [snd]. now rewrite app_nil_r.
Qed.

(** X15: [main] authenticates before it dispatches.  With an accepted
    command line, the operations of the program are those of [login]
    followed by waits and publish calls only; when [login] fails there is
    no wait and no publish call, and the exit code is 1. *)
Theorem main_authenticates_first (env : Env) (argv : list string)
        (options : ScheduleOptions) (w : World) :
  parseArgs argv = Ok options ->
  exists la da,
    since w (snd (main env argv w)) = (la ++ da)%list /\
    since w (snd (login env defaultClient w)) = la /\
    forallb (fun e => negb (isDispatch e)) la = true /\
    forallb isDispatch da = true /\
    (forall e, fst (login env defaultClient w) = Err e ->
               da = [] /\ main env argv w = (1, snd (login env defaultClient w))).
Proof.
  intros Hargs. rewrite (main_eq env argv options w Hargs).
  destruct (login_trace env defaultClient w) as (la & Hla & Hnd).
  exists la.
  destruct (login env defaultClient w) as [[u|e] w1]; cbn [fst snd] in *.
  - destruct (sendConfiguredTweets_trace env "./tweets.json" options w1)
      as (da & Hda & Hdis).
    exists da.
    assert (Hs : since w (snd (sendConfiguredTweets env "./tweets.json" options w1))
                 = (la ++ da)%list).
    { apply since_app. rewrite Hda, Hla. now rewrite app_assoc. }
    split; [now destruct (sendConfiguredTweets env "./tweets.json" options w1)
                  as [[u'|e'] w2]|].
    split; [now apply since_app|].
    split; [exact Hnd|]. split; [exact Hdis|]. discriminate.
  - exists []. rewrite app_nil_r.
    split; [now apply since_app|]. split; [now apply since_app|].
    split; [exact Hnd|]. split; [reflexivity|]. auto.
Qed.

Lemma main_authenticates_first_witness :
  main (lockedOutEnv [mkRaw (Some "A") None]) ["--delay"; "3"] emptyWorld
  = (1, snd (login (lockedOutEnv [mkRaw (Some "A") None]) defaultClient emptyWorld)).
Proof.
  destruct (main_authenticates_first (lockedOutEnv [mkRaw (Some "A") None])
              ["--delay"; "3"] (mkOptions 3 0) emptyWorld eq_refl)
    as (la & da & _ & _ & _ & _ & Hfail).
  exact (proj2 (Hfail LoginFailed eq_refl)).
Defined.

Lemma published_no_dispatch (la : list Event) :
  forallb (fun e => negb (isDispatch e)) la = true -> published la = [].
Proof.
  induction la as [|e r IH]; [reflexivity|]. cbn [forallb].
  intros H. apply andb_true_iff in H as [He Hr].
  unfold published in *. cbn [flat_map]. rewrite (IH Hr).
  now destruct e.
Qed.

(** X16: the exit code is 0 or 1, and it is 0 only when the command line
    was accepted, authentication succeeded, the tweets file loaded, and
    every post of the working set was published, each once, in order. *)
Theorem exit_code_zero (env : Env) (argv : list string) (w : World) :
  (fst (main env argv w) = 0 \/ fst (main env argv w) = 1) /\
  (fst (main env argv w) = 0 ->
   exists options tweets,
     parseArgs argv = Ok options /\
     fst (login env defaultClient w) = Ok tt /\
     fst (loadTweetsConfig env "./tweets.json" w) = Ok tweets /\
     published (since w (snd (main env argv w)))
     = map content (tweetsToSend options tweets)).
Proof.
  destruct (parseArgs argv) as [options|e] eqn:Hargs.
  2:{ unfold main. rewrite Hargs. cbn [fst]. split; [now right|discriminate]. }
  rewrite (main_eq env argv options w Hargs).
  destruct (login_trace env defaultClient w) as (la & Hla & Hnd).
  destruct (login env defaultClient w) as [[[]|e] w1]; cbn [fst snd] in *.
  2:{ split; [now right|discriminate]. }
  destruct (loadTweetsConfig env "./tweets.json" w1) as [[tweets|e] w0] eqn:Hload.
  - destruct (loadTweetsConfig_pure _ _ _ _ _ Hload) as [_ Hany].
    destruct (run_trace env "./tweets.json" options tweets w1 w0 Hload)
      as (Hext & _ & _ & Hok).
    destruct (sendConfiguredTweets env "./tweets.json" options w1)
      as [[[]|e] w2]; cbn [fst snd] in *.
    + split; [now left|]. intros _. exists options, tweets.
      split; [reflexivity|]. split; [reflexivity|].
      split; [now rewrite Hany|].
      assert (Hs : since w w2 = (la ++ since w1 w2)%list).
      { apply since_app. rewrite Hext at 1. cbn [trace]. now rewrite Hla, app_assoc. }
      rewrite Hs, published_app, (published_no_dispatch la Hnd). cbn [app].
      rewrite published_steps, (Hok eq_refl). apply publishedSteps_plan.
    + split; [now right|discriminate].
  - destruct (loadTweetsConfig_pure _ _ _ _ _ Hload) as [-> _].
    unfold sendConfiguredTweets, bind. rewrite Hload. cbn [fst].
    split; [now right|discriminate].
Qed.

Lemma exit_code_zero_witness :
  exists options tweets,
    parseArgs ["--count"; "1"] = Ok options /\
    fst (login (happyEnv [mkRaw (Some "A") None; mkRaw (Some "B") None] 0 ParseThrows)
               defaultClient emptyWorld) = Ok tt /\
    fst (loadTweetsConfig
           (happyEnv [mkRaw (Some "A") None; mkRaw (Some "B") None] 0 ParseThrows)
           "./tweets.json" emptyWorld) = Ok tweets /\
    published (since emptyWorld (snd (main
      (happyEnv [mkRaw (Some "A") None; mkRaw (Some "B") None] 0 ParseThrows)
      ["--count"; "1"] emptyWorld)))
    = map content (tweetsToSend options tweets).
Proof.
  exact (proj2 (exit_code_zero
                  (happyEnv [mkRaw (Some "A") None; mkRaw (Some "B") None] 0 ParseThrows)
                  ["--count"; "1"] emptyWorld) eq_refl).
Defined.

(** ** Extensions: letter case and paths without one *)

Lemma lowerChar_keeps (sep c : ascii) :
  Str.isUpper sep = false -> Str.lowerChar sep = sep ->
  (forall u, Str.isUpper u = true -> Str.lowerChar u <> sep) ->
  Ascii.eqb (Str.lowerChar c) sep = Ascii.eqb c sep.
Proof.
  intros Hsep _ Hno. unfold Str.lowerChar at 1.
  destruct (Str.isUpper c) eqn:Hc; [|reflexivity].
  destruct (Ascii.eqb_spec c sep) as [->|Hne]; [congruence|].
  apply Ascii.eqb_neq. specialize (Hno c Hc). unfold Str.lowerChar in Hno.
  now rewrite Hc in Hno.
Qed.

Lemma upper_lowers_to_letter (u : ascii) :
  Str.isUpper u = true ->
  Str.lowerChar u <> "."%char /\ Str.lowerChar u <> "/"%char /\
  Str.isUpper (Str.lowerChar u) = false.
Proof.
  destruct u as [[] [] [] [] [] [] [] []]; try discriminate; intros _;
    repeat split; discriminate.
Qed.

Lemma lowerChar_dot (c : ascii) :
  Ascii.eqb (Str.lowerChar c) "." = Ascii.eqb c ".".
Proof.
  apply lowerChar_keeps; try reflexivity.
  intros u Hu. now destruct (upper_lowers_to_letter u Hu).
Qed.

Lemma lowerChar_slash (c : ascii) :
  Ascii.eqb (Str.lowerChar c) "/" = Ascii.eqb c "/".
Proof.
  apply lowerChar_keeps; try reflexivity.
  intros u Hu. now destruct (upper_lowers_to_letter u Hu).
Qed.

Lemma lowerChar_idem (c : ascii) : Str.lowerChar (Str.lowerChar c) = Str.lowerChar c.
Proof.
  unfold Str.lowerChar at 2 3. destruct (Str.isUpper c) eqn:Hc.
  - destruct (upper_lowers_to_letter c Hc) as (_ & _ & H).
    unfold Str.lowerChar at 1. unfold Str.lowerChar in H. rewrite Hc in H.
    now rewrite H.
  - unfold Str.lowerChar. now rewrite Hc.
Qed.

Lemma toLowerCase_idem (s : string) :
  Str.toLowerCase (Str.toLowerCase s) = Str.toLowerCase s.
Proof.
  induction s as [|c r IH]; [reflexivity|].
  cbn [Str.toLowerCase]. now rewrite lowerChar_idem, IH.
Qed.

Lemma split_lower (s : string) :
  Str.split "." (Str.toLowerCase s) = map Str.toLowerCase (Str.split "." s).
Proof.
  induction s as [|c r IH]; [reflexivity|].
  cbn [Str.toLowerCase Str.split]. rewrite lowerChar_dot, IH.
  destruct (Ascii.eqb c "."); [reflexivity|].
  now destruct (Str.split "." r).
Qed.

Lemma pop_map (f : string -> string) (l : list string) :
  Str.pop (map f l) = option_map f (Str.pop l).
Proof.
  destruct l as [|x r]; [reflexivity|]. cbn [map Str.pop option_map]. f_equal.
  revert x. induction r as [|y r IH]; intros x; [reflexivity|].
  cbn [map]. rewrite !last_cons. apply IH.
Qed.

(** X17: the media type of a path does not depend on the case of its
    ASCII letters, anywhere in the path: two paths that are equal once
    their letters [A]-[Z] are lowered get the same lookup result, so they
    are accepted or rejected together. *)
Theorem media_type_ignores_case (p q : string) :
  Str.toLowerCase p = Str.toLowerCase q ->
  getMimeType (extensionOf p) = getMimeType (extensionOf q) /\
  truthy (getMimeType (extensionOf p)) = truthy (getMimeType (extensionOf q)).
Proof.
  assert (H : forall s, extensionOf (Str.toLowerCase s) = extensionOf s).
  { intros s. unfold extensionOf. rewrite split_lower, pop_map.
    destruct (Str.pop (Str.split "." s)) as [e|]; [|reflexivity].
    cbn [option_map]. now rewrite toLowerCase_idem. }
  intros Hpq.
  assert (He : getMimeType (extensionOf p) = getMimeType (extensionOf q)).
  { now rewrite <- (H p), <- (H q), Hpq. }
  split; [exact He|now rewrite He].
Qed.

Lemma media_type_ignores_case_witness :
  getMimeType (extensionOf "Trip/IMG_1.JPEG") = getMimeType (extensionOf "trip/img_1.jpeg").
Proof.
  apply (proj1 (media_type_ignores_case "Trip/IMG_1.JPEG" "trip/img_1.jpeg" eq_refl)).
Defined.

Lemma contains_lower_slash (e : string) :
  Str.contains "/" (Str.toLowerCase e) = Str.contains "/" e.
Proof.
  unfold Str.contains. induction e as [|c r IH]; [reflexivity|].
  cbn [Str.toLowerCase list_ascii_of_string existsb].
  rewrite IH, (Ascii.eqb_sym "/"%char), lowerChar_slash, (Ascii.eqb_sym c).
  reflexivity.
Qed.

(** X18: paths without a usable extension.  A path that ends with a dot
    has the empty extension and is rejected before any publish call.  A
    path without any dot is its own extension, so it is accepted exactly
    when the whole lower-cased path is a name the table resolves.  A path
    whose last dot is followed by a [/] -- the dot belongs to a directory
    name -- is never resolved. *)
Theorem paths_without_extension (env : Env) (text a e : string) (w : World) :
  sendTweet env text [a ++ "."] w = (Err (UnsupportedMedia (a ++ ".")), w) /\
  (Str.contains "." e = false ->
   getMimeType (extensionOf e) = getMimeType (Some (Str.toLowerCase e)) /\
   (Str.contains "/" e = true ->
    getMimeType (extensionOf (a ++ String "." e)) = Undefined)).
Proof.
  split.
  - rewrite sendTweet_eq.
    assert (Hext : extensionOf (a ++ ".") = Some "").
    { now destruct (extension_after_last_dot a "" eq_refl) as [-> _]. }
    unfold mediaFor, resolveMedia. cbn [checkExtensions]. unfold checkExtension.
    rewrite Hext. reflexivity.
  - intros Hdot. destruct (extension_after_last_dot a e Hdot) as [Ha He].
    split; [now rewrite He|].
    intros Hslash. rewrite Ha. apply mime_undefined_iff. right.
    rewrite <- contains_lower_slash in Hslash.
    split; intros Hin; cbn in Hin;
      repeat (destruct Hin as [Hin|Hin]; [rewrite <- Hin in Hslash; discriminate Hslash|]);
      exact Hin.
Qed.

Lemma paths_without_extension_witness :
  getMimeType (extensionOf "GIF") = getMimeType (Some (Str.toLowerCase "GIF")) /\
  getMimeType (extensionOf ("./shots" ++ String "." "v2/cover")) = Undefined.
Proof.
  destruct (proj2 (paths_without_extension (happyEnv [] 0 ParseThrows) "hi"
                     "./shots" "GIF" emptyWorld) eq_refl) as [H _].
  destruct (proj2 (paths_without_extension (happyEnv [] 0 ParseThrows) "hi"
                     "./shots" "v2/cover" emptyWorld) eq_refl) as [_ H'].
  split; [exact H|exact (H' eq_refl)].
Defined.

(** ** The single-tweet script *)

Lemma sendTweetScript_eq (env : Env) (text : string) (paths : list string) (w : World) :
  sendTweetScript env text paths w =
  if loginOk env (trace w)
  then sendTweet env text paths (addEvent w Login)
  else (Err LoginFailed, addEvent w Login).
Proof.
  unfold sendTweetScript, sendTweet, bind, history, emit, ret, throw, addEvent.
  cbn [trace cookieFile].
  destruct (loginOk env (trace w)); reflexivity.
Qed.

(** X19: the script logs in with the credentials on every call, before
    anything else, and then behaves as [TwitterClient.sendTweet]: it never
    reads, applies or writes cached cookies, makes at most one publish
    call, and makes none when the login is refused. *)
Theorem script_logs_in_first (env : Env) (text : string) (paths : list string)
        (w : World) :
  let r := sendTweetScript env text paths w in
  cookieFile (snd r) = cookieFile w /\
  (exists rest,
      since w (snd r) = Login :: rest /\
      (rest = [] \/ exists m, rest = [Publish text m])) /\
  (loginOk env (trace w) = false -> r = (Err LoginFailed, addEvent w Login)) /\
  (loginOk env (trace w) = true ->
   r = sendTweet env text paths (addEvent w Login)).
Proof.
  cbv zeta. rewrite sendTweetScript_eq.
  destruct (loginOk env (trace w)).
  - rewrite sendTweet_eq. cbn [addEvent trace cookieFile].
    destruct (mediaFor env (trace w ++ [Login]) paths) as [m|e]; cbn [fst snd].
    + split; [reflexivity|]. split; [|split; [discriminate|reflexivity]].
      exists [Publish text m]. split; [|eauto].
      apply since_app. cbn [trace]. now rewrite <- app_assoc.
    + split; [reflexivity|]. split; [|split; [discriminate|reflexivity]].
      exists []. split; [now apply since_app|auto].
  - cbn [fst snd addEvent cookieFile].
    split; [reflexivity|]. split; [|split; [reflexivity|discriminate]].
    exists []. split; [now apply since_app|auto].
Qed.

Lemma script_logs_in_first_witness :
  sendTweetScript (lockedOutEnv []) "Hello" ["./a.png"] emptyWorld
  = (Err LoginFailed, addEvent emptyWorld Login) /\
  sendTweetScript (happyEnv [] 0 ParseThrows) "Hello" ["./a.png"] emptyWorld
  = sendTweet (happyEnv [] 0 ParseThrows) "Hello" ["./a.png"]
              (addEvent emptyWorld Login).
Proof.
  split.
  - exact (proj1 (proj2 (proj2 (script_logs_in_first (lockedOutEnv []) "Hello"
                                   ["./a.png"] emptyWorld))) eq_refl).
  - exact (proj2 (proj2 (proj2 (script_logs_in_first (happyEnv [] 0 ParseThrows)
                                   "Hello" ["./a.png"] emptyWorld))) eq_refl).
Defined.

(** X20: in the script the media are checked only after the login: with a
    media path whose extension the lookup leaves undefined, an accepted
    login is followed by the media error and nothing is published. *)
Theorem script_checks_media_after_login (env : Env) (text : string)
        (paths : list string) (p : string) (w : World) :
  loginOk env (trace w) = true ->
  In p paths -> getMimeType (extensionOf p) = Undefined ->
  exists q,
    In q paths /\ getMimeType (extensionOf q) = Undefined /\
    sendTweetScript env text paths w = (Err (UnsupportedMedia q), addEvent w Login) /\
    since w (snd (sendTweetScript env text paths w)) = [Login].
Proof.
  intros Hlogin Hin Hp. rewrite sendTweetScript_eq, Hlogin, sendTweet_eq.
  assert (Hf : truthy (getMimeType (extensionOf p)) = false) by now rewrite Hp.
  destruct (mediaFor_unsupported env (trace (addEvent w Login)) paths p Hin Hf)
    as (q & Hq & Hqin & Hqf).
  rewrite Hq. exists q. split; [exact Hqin|].
  split; [now apply getMimeType_falsy|]. split; [reflexivity|].
  now apply since_app.
Qed.

Lemma script_checks_media_after_login_witness :
  exists q,
    sendTweetScript (happyEnv [] 0 ParseThrows) "Hello" ["a.png"; "b.webp"] emptyWorld
    = (Err (UnsupportedMedia q), addEvent emptyWorld Login).
Proof.
  destruct (script_checks_media_after_login (happyEnv [] 0 ParseThrows) "Hello"
              ["a.png"; "b.webp"] "b.webp" emptyWorld eq_refl
              (or_intror (or_introl eq_refl)) eq_refl) as (q & _ & _ & H & _).
  exists q. exact H.
Defined.

(** ** Runs that fail *)

Lemma sendLoop_failure (env : Env) (ms : Z) (l : list TweetConfig) :
  forall (i : nat) (w : World) (e : Error),
  fst (sendLoop env ms i l w) = Err e ->
  exists k,
    (k < List.length l)%nat /\
    ((isMediaError e = true /\
      published (since w (snd (sendLoop env ms i l w))) = map content (firstn k l)) \/
     (e = PublishFailed /\
      published (since w (snd (sendLoop env ms i l w))) = map content (firstn (S k) l))).
Proof.
  induction l as [|t r IH]; intros i w e; [discriminate|].
  rewrite sendLoop_cons. cbv zeta. rewrite sendTweet_eq. cbn [trace cookieFile].
  destruct (mediaFor env (trace w ++ waitBefore ms i) (pathsOf t)) as [m|e'] eqn:Hm.
  - set (w2 := mkWorld ((trace w ++ waitBefore ms i) ++ [Publish (content t) m])
                       (cookieFile w)).
    destruct (sendTweetOk env _ (content t) m).
    + intros He.
      destruct (sendLoop_trace env ms r (S i) w2) as (evs & Hext & _).
      destruct (IH (S i) w2 e He) as (k & Hk & Hcase).
      rewrite (since_extends _ _ _ Hext) in Hcase.
      assert (Hs : published (since w (snd (sendLoop env ms (S i) r w2)))
                   = content t :: published evs).
      { erewrite since_app.
        2:{ rewrite Hext. unfold w2. cbn [trace]. rewrite <- !app_assoc. reflexivity. }
        rewrite !published_app, published_waitBefore. reflexivity. }
      exists (S k). split; [cbn [List.length]; lia|]. rewrite Hs.
      destruct Hcase as [[Hmed Hpub]|[Hpf Hpub]]; [left|right];
        (split; [assumption|]); rewrite Hpub; reflexivity.
    + cbn [fst snd]. intros [= <-]. exists 0%nat.
      split; [cbn [List.length]; lia|]. right. split; [reflexivity|].
      erewrite since_app by (unfold w2; cbn [trace]; rewrite <- app_assoc; reflexivity).
      rewrite published_app, published_waitBefore. reflexivity.
  - cbn [fst snd]. intros [= <-]. exists 0%nat.
    split; [cbn [List.length]; lia|]. left.
    split; [exact (mediaFor_error _ _ _ _ Hm)|].
    erewrite since_app by reflexivity. apply published_waitBefore.
Qed.

(** X21: once the tweets file has loaded, a run can fail only with a media
    error or with the error of a publish call.  It fails at one post [k] of
    the working set: the posts before it have been published, in order, and
    no post after it is attempted; on a media error post [k] itself was not
    passed to the publish operation, on a publish error its call is the
    last one made and it is not retried. *)
Theorem failed_run_stops_at_one_post (env : Env) (configPath : string)
        (options : ScheduleOptions) (tweets : list TweetConfig)
        (w w0 : World) (e : Error) :
  loadTweetsConfig env configPath w = (Ok tweets, w0) ->
  fst (sendConfiguredTweets env configPath options w) = Err e ->
  let ws := tweetsToSend options tweets in
  let evs := since w (snd (sendConfiguredTweets env configPath options w)) in
  exists k,
    (k < List.length ws)%nat /\
    ((isMediaError e = true /\ published evs = map content (firstn k ws)) \/
     (e = PublishFailed /\ published evs = map content (firstn (S k) ws))).
Proof.
  intros Hload. cbv zeta.
  rewrite (sendConfiguredTweets_loaded _ _ options _ _ _ Hload).
  apply sendLoop_failure.
Qed.

Lemma failed_run_stops_at_one_post_witness :
  let env := rejectingEnv [mkRaw (Some "A") None; mkRaw (Some "B") None] in
  exists k,
    (k < 2)%nat /\
    ((isMediaError PublishFailed = true /\
      published (since emptyWorld (snd (sendConfiguredTweets env "./tweets.json"
                                          (mkOptions 2 0) emptyWorld)))
      = map content (firstn k [mkTweet "A" None; mkTweet "B" None])) \/
     (PublishFailed = PublishFailed /\
      published (since emptyWorld (snd (sendConfiguredTweets env "./tweets.json"
                                          (mkOptions 2 0) emptyWorld)))
      = map content (firstn (S k) [mkTweet "A" None; mkTweet "B" None]))).
Proof.
  exact (failed_run_stops_at_one_post
           (rejectingEnv [mkRaw (Some "A") None; mkRaw (Some "B") None])
           "./tweets.json" (mkOptions 2 0)
           [mkTweet "A" None; mkTweet "B" None]
           emptyWorld emptyWorld PublishFailed eq_refl eq_refl).
Defined.

(** ** The order of a dispatch *)

(** X22: in every run the loop adds nothing but timers and publish calls,
    one after the other, and they form an initial part of the plan of the
    working set -- the whole plan when the run completes.  The plan starts
    with the publish of the first post, no timer before it, and continues
    with one [setTimeout] of [delayMs] before each later publish, in the
    order of the working set.  For [A; B; C] with [count = 2] the plan is:
    publish A, timer, publish B; C is not part of it. *)
Theorem dispatch_order (env : Env) (configPath : string)
        (options : ScheduleOptions) (tweets : list TweetConfig) (w w0 : World) :
  loadTweetsConfig env configPath w = (Ok tweets, w0) ->
  let run := sendConfiguredTweets env configPath options w in
  let evs := since w (snd run) in
  let ms := delayMs options in
  let ws := tweetsToSend options tweets in
  trace (snd run) = (trace w ++ evs)%list /\
  forallb isDispatch evs = true /\
  prefix (stepsOf evs) (plan ms 0 ws) /\
  (fst run = Ok tt -> stepsOf evs = plan ms 0 ws) /\
  plan ms 0 ws =
    match ws with
    | [] => []
    | first :: later =>
        SPublish (content first)
        :: flat_map (fun t => [SWait ms; SPublish (content t)]) later
    end /\
  (forall A B C : TweetConfig,
      tweets = [A; B; C] -> tweetCount options = 2 ->
      plan ms 0 ws = [SPublish (content A); SWait ms; SPublish (content B)] /\
      prefix (published evs) [content A; content B]).
Proof.
  intros Hload run evs ms ws.
  assert (Hms : delayMs options = ms) by reflexivity.
  destruct (run_trace env configPath options tweets w w0 Hload)
    as (Hext & Hdis & Hpre & Hok).
  fold run in Hext, Hdis, Hpre, Hok. fold evs in Hext, Hdis, Hpre, Hok.
  rewrite Hms in Hpre, Hok. fold ws in Hpre, Hok.
  split; [now rewrite Hext|].
  split; [exact Hdis|].
  split; [exact Hpre|].
  split; [exact Hok|].
  split; [destruct ws; [reflexivity|apply plan_first]|].
  intros A B C Ht Hc.
  assert (Hws : ws = [A; B]).
  { unfold ws, tweetsToSend, slice0. rewrite Hc, Ht. reflexivity. }
  split; [rewrite Hws; reflexivity|].
  rewrite published_steps.
  change [content A; content B] with (map content [A; B]).
  rewrite <- (publishedSteps_plan ms [A; B] 0%nat), <- Hws.
  now apply publishedSteps_prefix.
Qed.

Lemma dispatch_order_witness :
  let run := sendConfiguredTweets
     (happyEnv [mkRaw (Some "A") None; mkRaw (Some "B") None; mkRaw (Some "C") None]
               0 ParseThrows) "./tweets.json" (mkOptions 1 2) emptyWorld in
  stepsOf (since emptyWorld (snd run)) = [SPublish "A"; SWait 120000; SPublish "B"] /\
  prefix (published (since emptyWorld (snd run))) ["A"; "B"].
Proof.
  pose (raw := [mkRaw (Some "A") None; mkRaw (Some "B") None; mkRaw (Some "C") None]).
  pose proof (dispatch_order (happyEnv raw 0 ParseThrows) "./tweets.json"
                (mkOptions 1 2)
                [mkTweet "A" None; mkTweet "B" None; mkTweet "C" None]
                emptyWorld emptyWorld eq_refl) as H.
  cbv zeta in H. destruct H as (_ & _ & _ & Hok & _ & Hex).
  cbv zeta. split.
  - etransitivity; [apply Hok; vm_compute; reflexivity|reflexivity].
  - exact (proj2 (Hex (mkTweet "A" None) (mkTweet "B" None) (mkTweet "C" None)
                      eq_refl eq_refl)).
Defined.
